(** * hopr-chat: the interactive send command and the open-channel listing

    A shallow embedding of [SendMessageFancy.selectIntermediateNodes] (the
    send command) and of [ListOpenChannels.execute]
    (commands/listOpenChannels.ts), with the properties their specification
    states about them.

    Conventions of the embedding.
    - A JavaScript exception is an [Error] carrying its [message]; an awaited
      promise is a [Promise A]: it resolves with a value or rejects with an
      error.
    - The collaborators that live in other packages or modules
      ([getOpenChannels], [checkPeerIdInput], [styleValue], [MAX_HOPS], the
      node's own identifier, the payment-channel connector) are Section
      variables. The awaited ones may reject; the formatting helpers are
      total functions.
    - The readline interface is the record of what the selector reads and
      writes on it: [_prompt], [completer] and the list of its ['line']
      listeners, in which a listener attached by [rl.once] is the wrapper
      around its function; [rl.listeners('line')] lists the functions.
      Writes to the terminal are collected in a list.
    - The lines the operator submits are a list of strings, delivered to the
      ['line'] listener one after the other, each one handled completely
      before the next. A run that has consumed its lines and still awaits
      one is a state, not a result: [result] is [None] there. *)

From Stdlib Require Import ZArith Ascii String List.
From stdpp Require Import base list strings.

(** ** Exceptions and awaited values *)

Record Error := mkError { message : string }.

Inductive Promise (A : Type) : Type :=
| Resolved (value : A)
| Rejected (err : Error).
Arguments Resolved {A} value.
Arguments Rejected {A} err.

(** [await p] followed by the rest of an [async] body. *)
Definition await {A B : Type} (p : Promise A) (k : A → Promise B) : Promise B :=
  match p with
  | Resolved a => k a
  | Rejected e => Rejected e
  end.

Notation "'let!' x ':=' p 'in' k" := (await p (fun x => k))
  (at level 10, x name, p at level 100, k at level 200).

(** What [styleValue] is given to print: a string or a number. *)
Inductive Printable :=
| Str (s : string)
| Num (n : nat).

(** ** The send command: [SendMessageFancy.selectIntermediateNodes] *)

Module SendMessage.

(** What the selector writes to the terminal. *)
Inductive Output :=
| ConsoleLog (text : string)
| MoveCursor
| ClearLine.

Section Selector.

Context {PeerId : Type} `{EqDecision PeerId}.
(** The completer and the listeners the host application had installed. *)
Context {HostCompleter HostListener : Type}.

(** [MAX_HOPS] of @hoprnet/hopr-core/lib/constants. *)
Variable MAX_HOPS : Z.
(** [this.node.peerInfo.id] *)
Variable self : PeerId.
(** [getOpenChannels(this.node, peer)] of ../utils *)
Variable getOpenChannels : PeerId → Promise (list PeerId).
(** [checkPeerIdInput(query)] of ../utils *)
Variable checkPeerIdInput : string → Promise PeerId.
(** [peer.toB58String()] *)
Variable toB58String : PeerId → string.
(** [styleValue(value, type?)] of ../utils *)
Variable styleValue : Printable → option string → string.

(** [a.equals(b)] on peer identifiers. *)
Definition equals (a b : PeerId) : bool := bool_decide (a = b).

(** [rl.completer]: the host's, or the closure of lines 146-148 over
    [validPeers]. *)
Inductive Completer :=
| Host (c : HostCompleter)
| PrefixCompleter (validPeers : list string).

(** A function in the list of ['line'] listeners: one of the host's as
    [rl.on] takes it, the wrapper [rl.once] puts around one (it detaches
    itself when it first fires), or the closure of lines 152-170. *)
Inductive Listener :=
| HostLine (l : HostListener)
| OnceWrapper (l : HostListener)
| SelectLine.

(** The function a listener stands for: a wrapper of [rl.once] gives the
    function it wraps. *)
Definition unwrap (l : Listener) : Listener :=
  match l with
  | OnceWrapper f => HostLine f
  | other => other
  end.

Record Interface := mkInterface {
  _prompt : string;
  completer : Completer;
  lineListeners : list Listener
}.

Definition setPrompt (rl : Interface) (p : string) : Interface :=
  mkInterface p (completer rl) (lineListeners rl).

Definition setCompleter (rl : Interface) (c : Completer) : Interface :=
  mkInterface (_prompt rl) c (lineListeners rl).

Definition removeAllListeners (rl : Interface) : Interface :=
  mkInterface (_prompt rl) (completer rl) [].

Definition on (rl : Interface) (l : Listener) : Interface :=
  mkInterface (_prompt rl) (completer rl) (lineListeners rl ++ [l]).

(** [rl.listeners('line')]: a copy of the list, the wrappers of [rl.once]
    unwrapped. *)
Definition listeners (rl : Interface) : list Listener :=
  map unwrap (lineListeners rl).

(** The interface with the functions of its list attached by [rl.on]:
    what lines 198-202 put back from what lines 138-141 have read. *)
Definition reattached (rl : Interface) : Interface :=
  mkInterface (_prompt rl) (completer rl) (listeners rl).

(** What the completer of line 146 answers: [cb(undefined, [hits, line])]. *)
Definition complete (c : Completer) (line : string)
  : option (list string * string) :=
  match c with
  | Host _ => None
  | PrefixCompleter validPeers =>
    Some (filter (fun peerId => String.prefix line peerId = true) validPeers,
          line)
  end.

(** Where the [async] function stands: at the pending promise of line 151
    (with the locals of lines 138-141), returned, or left by an exception. *)
Inductive Control :=
| AwaitingInput (oldPrompt : string) (oldCompleter : Completer)
                (oldListeners : list Listener)
| Returned
| Threw (err : Error).

Record State := mkState {
  selected : list PeerId;
  rl : Interface;
  out : list Output;
  control : Control
}.

Definition log (o : list Output) (text : string) : list Output :=
  o ++ [ConsoleLog text].

(** The texts of lines 125, 133, 181 and 185. *)
Definition selectText (n : nat) : string :=
  styleValue (Str ("Please select intermediate node " +:+
                   styleValue (Num n) None +:+
                   ": (leave empty to exit)")) (Some "highlight").

Definition noPeersText : string :=
  styleValue
    (Str "No peers with open channels found, you may enter a peer manually.")
    (Some "highlight").

Definition sameAsDestinationText : string :=
  styleValue (Str "Peer selected is same as destination peer.") (Some "failure").

Definition alreadySelectedText : string :=
  styleValue (Str "Peer is already an intermediate peer.") (Some "failure").

(** Line 128. *)
Definition lastSelected (selected : list PeerId) : PeerId :=
  match last selected with
  | Some p => p
  | None => self
  end.

(** Lines 132-134. *)
Definition announce (validPeers : list string) (o : list Output)
  : list Output :=
  if bool_decide (length validPeers = 0) then log o noPeersText else o.

(** Lines 124-151: the head of one iteration, up to the pending promise. *)
Definition beginIteration (selected : list PeerId) (rl : Interface)
    (o : list Output) : State :=
  let o := log o (selectText (length selected)) in
  match getOpenChannels (lastSelected selected) with
  | Rejected err => mkState selected rl o (Threw err)
  | Resolved openChannels =>
    let validPeers := map toB58String openChannels in
    let o := announce validPeers o in
    let oldPrompt := _prompt rl in
    let oldCompleter := completer rl in
    let oldListeners := listeners rl in
    let rl := removeAllListeners rl in
    let rl := setPrompt rl "" in
    let rl := setCompleter rl (PrefixCompleter validPeers) in
    let rl := on rl SelectLine in
    mkState selected rl o (AwaitingInput oldPrompt oldCompleter oldListeners)
  end.

(** Line 123: [while (!done)], and line 205. *)
Definition loop (done : bool) (selected : list PeerId) (rl : Interface)
    (o : list Output) : State :=
  if done then mkState selected rl o Returned
  else beginIteration selected rl o.

(** The test of line 193. *)
Definition allSelected (path : list PeerId) : bool :=
  bool_decide (Z.of_nat (length path) >= MAX_HOPS - 1)%Z.

Section Destination.

Variable destination : PeerId.

(** Lines 172-203: the rest of the iteration once the promise resolved
    with [peerId] ([None] is [undefined]), then the loop test. *)
Definition finishIteration (peerId : option PeerId)
    (selected : list PeerId) (rl : Interface) (o : list Output)
    (oldPrompt : string) (oldCompleter : Completer)
    (oldListeners : list Listener) : State :=
  let rl := removeAllListeners rl in
  let '(done, selected, o) :=
    match peerId with
    | None => (true, selected, o)
    | Some peerId =>
      if equals destination peerId
      then (false, selected, log o sameAsDestinationText)
      else match List.find (fun p => equals p peerId) selected with
           | Some _ => (false, selected, log o alreadySelectedText)
           | None => (false, selected ++ [peerId], o)
           end
    end in
  let done := if allSelected selected then true else done in
  let rl := setPrompt rl oldPrompt in
  let rl := setCompleter rl oldCompleter in
  let rl := fold_left on oldListeners rl in
  loop done selected rl o.

(** Line 153: the test of the empty submission. *)
Definition isEmptyQuery (query : string) : bool :=
  bool_decide (query = String "010"%char EmptyString)
  || bool_decide (query = "")
  || bool_decide (String.length query = 0).

(** Lines 152-170: the ['line'] listener on one submitted line. Once the
    function has returned or thrown its listener is detached, and the line
    is none of its business. *)
Definition onLine (s : State) (query : string) : State :=
  match control s with
  | AwaitingInput oldPrompt oldCompleter oldListeners =>
    if isEmptyQuery query
    then finishIteration None (selected s) (removeAllListeners (rl s))
           (out s) oldPrompt oldCompleter oldListeners
    else
      match checkPeerIdInput query with
      | Rejected err =>
        mkState (selected s) (rl s)
          (log (out s) (styleValue (Str (message err)) (Some "failure")))
          (control s)
      | Resolved peerId =>
        finishIteration (Some peerId) (selected s) (rl s)
          (out s ++ [MoveCursor; ClearLine])
          oldPrompt oldCompleter oldListeners
      end
  | _ => s
  end.

(** Lines 118-206 on the lines the operator submits. *)
Definition selectIntermediateNodes (rl : Interface) (lines : list string)
  : State :=
  fold_left onLine lines (loop false [] rl []).

(** What the caller of the [async] function gets, if anything yet. *)
Definition result (s : State) : option (Promise (list PeerId)) :=
  match control s with
  | AwaitingInput _ _ _ => None
  | Returned => Some (Resolved (selected s))
  | Threw err => Some (Rejected err)
  end.

(** *** Invariants of the selection loop *)

(** No duplicate and no destination in the path. *)
Definition pathOk (s : State) : Prop :=
  NoDup (selected s) ∧ destination ∉ selected s.

(** What the iteration saved, or what the interface holds once the
    function has returned, is the interface as it was handed in, its
    listeners attached by [rl.on]; an exception leaves it so, or untouched
    when it is thrown in the first iteration. *)
Definition saved (i : Interface) (s : State) : Prop :=
  match control s with
  | AwaitingInput p c ls => mkInterface p c ls = reattached i
  | Returned => rl s = reattached i
  | Threw _ => rl s = i ∨ rl s = reattached i
  end.

(** While a line is awaited there is room for one more peer. *)
Definition belowCapacity (s : State) : Prop :=
  match control s with
  | AwaitingInput _ _ _ => (Z.of_nat (length (selected s)) < MAX_HOPS - 1)%Z
  | _ => (Z.of_nat (length (selected s)) ≤ MAX_HOPS - 1)%Z
  end.

(** An exception can only be the one of the open-channel query. *)
Definition threwFromQuery (s : State) : Prop :=
  ∀ err, control s = Threw err →
    getOpenChannels (lastSelected (selected s)) = Rejected err.

(** While a line is awaited the interface carries the selector's prompt,
    its listener and a completer over the open channels of the reference
    peer, and the operator has been told when there are none. *)
Definition offersOpenChannels (s : State) : Prop :=
  ∀ p c ls, control s = AwaitingInput p c ls →
    ∃ openChannels,
      getOpenChannels (lastSelected (selected s)) = Resolved openChannels
      ∧ rl s = mkInterface "" (PrefixCompleter (map toB58String openChannels))
                 [SelectLine]
      ∧ (openChannels = [] → ConsoleLog noPeersText ∈ out s).

(** *** Shape of the steps *)

Lemma fold_left_on (ls : list Listener) (i : Interface) :
  fold_left on ls i
  = mkInterface (_prompt i) (completer i) (lineListeners i ++ ls).
Proof.
  revert i. induction ls as [|l ls IH]; intros [p c ll]; simpl.
  - by rewrite app_nil_r.
  - rewrite IH. simpl. by rewrite <- app_assoc.
Qed.

(** Whatever the interface holds when an iteration ends, lines 198-202 put
    back what the iteration saved. *)
Lemma restore_saved (i : Interface) p c ls :
  fold_left on ls (setCompleter (setPrompt (removeAllListeners i) p) c)
  = mkInterface p c ls.
Proof. by rewrite fold_left_on. Qed.

Lemma isEmptyQuery_true (query : string) :
  isEmptyQuery query = true ↔
  query = "" ∨ query = String "010"%char EmptyString.
Proof.
  unfold isEmptyQuery. rewrite !orb_true_iff, !bool_decide_eq_true.
  split.
  - intros [[?|?]|Hl]; auto. destruct query; [auto|discriminate].
  - intros [-> | ->]; auto.
Qed.

Lemma find_equals_None (peerId : PeerId) (l : list PeerId) :
  List.find (fun p => equals p peerId) l = None ↔ peerId ∉ l.
Proof.
  induction l as [|x l IH]; simpl.
  - split; [intros _; apply not_elem_of_nil|done].
  - unfold equals at 1. rewrite not_elem_of_cons. case_bool_decide; subst.
    + split; [done|]. intros [? _]. done.
    + rewrite IH. split; [intros ?; split; [congruence|done]|by intros [_ ?]].
Qed.

Lemma find_equals_Some (peerId : PeerId) (l : list PeerId) :
  is_Some (List.find (fun p => equals p peerId) l) ↔ peerId ∈ l.
Proof.
  rewrite <- not_eq_None_Some, find_equals_None.
  split; [apply dec_stable|tauto].
Qed.

Lemma selectIntermediateNodes_app (i : Interface) (pre rest : list string) :
  selectIntermediateNodes i (pre ++ rest)
  = fold_left onLine rest (selectIntermediateNodes i pre).
Proof. apply fold_left_app. Qed.

(** Once the function has returned or thrown, lines no longer reach it. *)
Lemma fold_onLine_ended (s : State) (lines : list string) :
  (∀ p c ls, control s ≠ AwaitingInput p c ls) →
  fold_left onLine lines s = s.
Proof.
  intros Hs. induction lines as [|q lines IH]; simpl; [done|].
  replace (onLine s q) with s; [done|].
  unfold onLine. destruct (control s) eqn:E; try done.
  by destruct (Hs _ _ _ eq_refl).
Qed.

(** Induction over the states the selector goes through. *)
Lemma selectIntermediateNodes_ind (P : State → Prop) (i : Interface) :
  P (loop false [] i []) →
  (∀ s query, P s → P (onLine s query)) →
  ∀ lines, P (selectIntermediateNodes i lines).
Proof.
  intros H0 Hstep lines. unfold selectIntermediateNodes.
  induction lines as [|q lines IH] using rev_ind; simpl; [done|].
  rewrite fold_left_app. simpl. by apply Hstep.
Qed.

Lemma finishIteration_undefined path i o p c ls :
  finishIteration None path i o p c ls
  = mkState path (mkInterface p c ls) o Returned.
Proof.
  unfold finishIteration. rewrite restore_saved.
  by destruct (allSelected _).
Qed.

Lemma finishIteration_destination path i o p c ls :
  finishIteration (Some destination) path i o p c ls
  = loop (allSelected path) path (mkInterface p c ls)
      (log o sameAsDestinationText).
Proof.
  unfold finishIteration, equals.
  rewrite bool_decide_eq_true_2 by done. rewrite restore_saved.
  by destruct (allSelected _).
Qed.

Lemma finishIteration_duplicate peerId path i o p c ls :
  peerId ≠ destination → peerId ∈ path →
  finishIteration (Some peerId) path i o p c ls
  = loop (allSelected path) path (mkInterface p c ls)
      (log o alreadySelectedText).
Proof.
  intros Hd Hin. unfold finishIteration, equals at 1.
  rewrite bool_decide_eq_false_2 by congruence.
  apply find_equals_Some in Hin as [x ->]. rewrite restore_saved.
  by destruct (allSelected _).
Qed.

Lemma finishIteration_push peerId path i o p c ls :
  peerId ≠ destination → peerId ∉ path →
  finishIteration (Some peerId) path i o p c ls
  = loop (allSelected (path ++ [peerId])) (path ++ [peerId])
      (mkInterface p c ls) o.
Proof.
  intros Hd Hin. unfold finishIteration, equals at 1.
  rewrite bool_decide_eq_false_2 by congruence.
  apply find_equals_None in Hin as ->. rewrite restore_saved.
  by destruct (allSelected _).
Qed.

(** The ways a resolved promise is handled, in one statement. *)
Lemma finishIteration_cases peerId path i o p c ls :
  ∃ done path' o',
    finishIteration peerId path i o p c ls
    = loop (done || allSelected path') path' (mkInterface p c ls) o'
    ∧ (∃ more, o' = o ++ more)
    ∧ (path' = path
       ∨ ∃ x, peerId = Some x ∧ x ≠ destination ∧ (x ∉ path)
              ∧ path' = path ++ [x]).
Proof.
  destruct peerId as [x|].
  - destruct (decide (x = destination)) as [->|Hd].
    { eexists false, path, _. rewrite finishIteration_destination.
      unfold log. eauto. }
    destruct (decide (x ∈ path)) as [Hin|Hin].
    + eexists false, path, _. rewrite finishIteration_duplicate by done.
      unfold log. eauto.
    + eexists false, _, _. rewrite finishIteration_push by done.
      split; [done|]. split; [by exists []; rewrite app_nil_r|].
      right. eauto.
  - exists true, path, o. rewrite finishIteration_undefined.
    split; [done|]. split; [by exists []; rewrite app_nil_r|]. by left.
Qed.

Lemma beginIteration_selected path i o :
  selected (beginIteration path i o) = path.
Proof. unfold beginIteration. by destruct (getOpenChannels _). Qed.

Lemma loop_selected done path i o :
  selected (loop done path i o) = path.
Proof. destruct done; simpl; [done|apply beginIteration_selected]. Qed.

Lemma beginIteration_resolved path i o openChannels :
  getOpenChannels (lastSelected path) = Resolved openChannels →
  beginIteration path i o
  = mkState path
      (mkInterface "" (PrefixCompleter (map toB58String openChannels))
                   [SelectLine])
      (announce (map toB58String openChannels)
                (log o (selectText (length path))))
      (AwaitingInput (_prompt i) (completer i) (listeners i)).
Proof. intros Hq. unfold beginIteration. by rewrite Hq. Qed.

Lemma beginIteration_rejected path i o err :
  getOpenChannels (lastSelected path) = Rejected err →
  beginIteration path i o
  = mkState path i (log o (selectText (length path))) (Threw err).
Proof. intros Hq. unfold beginIteration. by rewrite Hq. Qed.

Lemma loop_cases done path i o :
  (done = true ∧ loop done path i o = mkState path i o Returned)
  ∨ (done = false ∧ ∃ err,
       getOpenChannels (lastSelected path) = Rejected err
       ∧ loop done path i o
         = mkState path i (log o (selectText (length path))) (Threw err))
  ∨ (done = false ∧ ∃ openChannels,
       getOpenChannels (lastSelected path) = Resolved openChannels
       ∧ loop done path i o
         = mkState path
             (mkInterface "" (PrefixCompleter (map toB58String openChannels))
                          [SelectLine])
             (announce (map toB58String openChannels)
                       (log o (selectText (length path))))
             (AwaitingInput (_prompt i) (completer i) (listeners i))).
Proof.
  destruct done; simpl; [by left|right].
  destruct (getOpenChannels (lastSelected path)) as [chans|err] eqn:Hq;
    [right|left]; (split; [done|]).
  - exists chans. by rewrite (beginIteration_resolved _ _ _ chans).
  - exists err. by rewrite (beginIteration_rejected _ _ _ err).
Qed.

Lemma onLine_cases s query :
  ((∀ p c ls, control s ≠ AwaitingInput p c ls) ∧ onLine s query = s)
  ∨ (∃ err, isEmptyQuery query = false
       ∧ checkPeerIdInput query = Rejected err
       ∧ onLine s query
         = mkState (selected s) (rl s)
             (log (out s) (styleValue (Str (message err)) (Some "failure")))
             (control s))
  ∨ (∃ p c ls done path' o',
       control s = AwaitingInput p c ls
       ∧ onLine s query
         = loop (done || allSelected path') path' (mkInterface p c ls) o'
       ∧ (path' = selected s
          ∨ ∃ x, x ≠ destination ∧ (x ∉ selected s)
                 ∧ path' = selected s ++ [x])).
Proof.
  unfold onLine. destruct (control s) as [p c ls| |err] eqn:Hc;
    [|by left..].
  right. destruct (isEmptyQuery query) eqn:Hq.
  - right. destruct (finishIteration_cases None (selected s)
      (removeAllListeners (rl s)) (out s) p c ls)
      as (d & path' & o' & -> & _ & [->|(x & ? & _)]); [|done].
    exists p, c, ls, d, (selected s), o'. eauto.
  - destruct (checkPeerIdInput query) as [peerId|err] eqn:Hp.
    + right. destruct (finishIteration_cases (Some peerId) (selected s)
        (rl s) (out s ++ [MoveCursor; ClearLine]) p c ls)
        as (d & path' & o' & -> & _ & Hpath).
      exists p, c, ls, d, path', o'. split; [done|]. split; [done|].
      destruct Hpath as [->|(x & _ & ? & ? & ->)]; eauto.
    + left. by exists err.
Qed.

(** *** The invariants hold along every run *)

Lemma pathOk_push path x :
  NoDup path → destination ∉ path → x ≠ destination → x ∉ path →
  NoDup (path ++ [x]) ∧ destination ∉ path ++ [x].
Proof.
  intros Hnd Hdest Hx Hin. split.
  - apply NoDup_app. repeat split; [done| |apply NoDup_singleton].
    intros y Hy ->%list_elem_of_singleton. done.
  - rewrite elem_of_app, list_elem_of_singleton. intros [?|?]; congruence.
Qed.

Lemma pathOk_selectIntermediateNodes i lines :
  pathOk (selectIntermediateNodes i lines).
Proof.
  apply selectIntermediateNodes_ind.
  - unfold pathOk. rewrite loop_selected.
    split; [apply NoDup_nil_2|apply not_elem_of_nil].
  - intros s query [Hnd Hdest].
    destruct (onLine_cases s query)
      as [[_ ->]|[(err & _ & _ & ->)|(p & c & ls & d & path' & o' & _ & -> & Hp)]];
      try done.
    unfold pathOk. rewrite loop_selected.
    destruct Hp as [->|(x & Hx & Hin & ->)]; [done|].
    by apply pathOk_push.
Qed.

Lemma unwrap_unwrap (l : Listener) : unwrap (unwrap l) = unwrap l.
Proof. by destruct l. Qed.

Lemma reattached_reattached (i : Interface) :
  reattached (reattached i) = reattached i.
Proof.
  unfold reattached, listeners. simpl. f_equal.
  rewrite <- list_fmap_compose. apply list_fmap_ext.
  intros ? l _. apply unwrap_unwrap.
Qed.

(** An interface without a wrapper of [rl.once] is its own reattachment. *)
Lemma reattached_without_once (i : Interface) :
  (∀ f, OnceWrapper f ∉ lineListeners i) → reattached i = i.
Proof.
  intros Hno. destruct i as [p c ls]. unfold reattached, listeners. simpl in *.
  f_equal. induction ls as [|l ls IH]; [done|]. simpl.
  rewrite IH.
  - f_equal. destruct l as [f|f|]; try done.
    destruct (Hno f). apply list_elem_of_here.
  - intros f Hf. apply (Hno f). by apply list_elem_of_further.
Qed.

(** A first iteration, on the interface as handed in. *)
Lemma saved_first_loop path i o : saved i (loop false path i o).
Proof.
  destruct (loop_cases false path i o)
    as [[? _]|[(_ & ? & _ & ->)|(_ & ? & _ & ->)]];
    unfold saved; simpl; [done|by left|done].
Qed.

(** A later iteration, on the interface the one before has put back. *)
Lemma saved_loop done path i o : saved i (loop done path (reattached i) o).
Proof.
  destruct (loop_cases done path (reattached i) o)
    as [[_ ->]|[(_ & ? & _ & ->)|(_ & ? & _ & ->)]];
    unfold saved; simpl; [done|by right|].
  apply (reattached_reattached i).
Qed.

Lemma saved_selectIntermediateNodes i lines :
  saved i (selectIntermediateNodes i lines).
Proof.
  apply selectIntermediateNodes_ind; [apply saved_first_loop|].
  intros s query Hs.
  destruct (onLine_cases s query)
    as [[_ ->]|[(err & _ & _ & ->)|(p & c & ls & d & path' & o' & Hc & -> & _)]];
    try done.
  unfold saved in Hs. rewrite Hc in Hs. rewrite Hs. apply saved_loop.
Qed.

Lemma threwFromQuery_loop done path i o :
  threwFromQuery (loop done path i o).
Proof.
  destruct (loop_cases done path i o)
    as [[_ ->]|[(_ & ? & Hq & ->)|(_ & ? & _ & ->)]];
    intros e; simpl; try done. by intros [= <-].
Qed.

Lemma threwFromQuery_selectIntermediateNodes i lines :
  threwFromQuery (selectIntermediateNodes i lines).
Proof.
  apply selectIntermediateNodes_ind; [apply threwFromQuery_loop|].
  intros s query Hs.
  destruct (onLine_cases s query)
    as [[_ ->]|[(err & _ & _ & ->)|(p & c & ls & d & path' & o' & Hc & -> & _)]];
    try done; apply threwFromQuery_loop.
Qed.

Lemma offersOpenChannels_loop done path i o :
  offersOpenChannels (loop done path i o).
Proof.
  destruct (loop_cases done path i o)
    as [[_ ->]|[(_ & ? & _ & ->)|(_ & chans & Hq & ->)]];
    intros p c ls; simpl; try done.
  intros _. exists chans. split; [done|]. split; [done|].
  intros ->. unfold announce, log. simpl.
  apply elem_of_app. right. by apply list_elem_of_singleton.
Qed.

Lemma offersOpenChannels_selectIntermediateNodes i lines :
  offersOpenChannels (selectIntermediateNodes i lines).
Proof.
  apply selectIntermediateNodes_ind; [apply offersOpenChannels_loop|].
  intros s query Hs.
  destruct (onLine_cases s query)
    as [[_ ->]|[(err & _ & _ & ->)|(p & c & ls & d & path' & o' & Hc & -> & _)]];
    try done; [|apply offersOpenChannels_loop].
  intros p c ls Hc. simpl in *.
  destruct (Hs p c ls Hc) as (chans & ? & ? & Hlog).
  exists chans. split; [done|]. split; [done|].
  intros Hn. unfold log. apply elem_of_app. left. auto.
Qed.

Lemma belowCapacity_loop done path i o :
  (Z.of_nat (length path) ≤ MAX_HOPS - 1)%Z →
  (done = false → Z.of_nat (length path) < MAX_HOPS - 1)%Z →
  belowCapacity (loop done path i o).
Proof.
  intros Hle Hlt.
  destruct (loop_cases done path i o)
    as [[_ ->]|[(Hd & ? & _ & ->)|(Hd & ? & _ & ->)]];
    unfold belowCapacity; simpl; auto.
Qed.

Lemma belowCapacity_selectIntermediateNodes i lines :
  (2 ≤ MAX_HOPS)%Z →
  belowCapacity (selectIntermediateNodes i lines).
Proof.
  intros Hmax. apply selectIntermediateNodes_ind.
  - apply belowCapacity_loop; simpl; lia.
  - intros s query Hs.
    destruct (onLine_cases s query)
      as [[_ ->]|[(err & _ & _ & ->)|(p & c & ls & d & path' & o' & Hc & -> & Hp)]];
      try done.
    unfold belowCapacity in Hs. rewrite Hc in Hs.
    assert (Z.of_nat (length path') ≤ MAX_HOPS - 1)%Z as Hle.
    { destruct Hp as [->|(x & _ & _ & ->)]; [lia|].
      rewrite length_app. simpl. lia. }
    apply belowCapacity_loop; [done|].
    intros [_ Hall]%orb_false_iff. unfold allSelected in Hall.
    apply bool_decide_eq_false in Hall. lia.
Qed.

(** *** One submitted line *)

Lemma selectIntermediateNodes_snoc (i : Interface) pre query :
  selectIntermediateNodes i (pre ++ [query])
  = onLine (selectIntermediateNodes i pre) query.
Proof. by rewrite selectIntermediateNodes_app. Qed.

Lemma onLine_empty s query p c ls :
  control s = AwaitingInput p c ls →
  isEmptyQuery query = true →
  onLine s query = mkState (selected s) (mkInterface p c ls) (out s) Returned.
Proof.
  intros Hc Hq. unfold onLine. rewrite Hc, Hq.
  apply finishIteration_undefined.
Qed.

Lemma onLine_invalid s query err p c ls :
  control s = AwaitingInput p c ls →
  isEmptyQuery query = false →
  checkPeerIdInput query = Rejected err →
  onLine s query
  = mkState (selected s) (rl s)
      (log (out s) (styleValue (Str (message err)) (Some "failure")))
      (AwaitingInput p c ls).
Proof. intros Hc Hq Hp. unfold onLine. by rewrite Hc, Hq, Hp. Qed.

Lemma onLine_parsed s query peerId p c ls :
  control s = AwaitingInput p c ls →
  isEmptyQuery query = false →
  checkPeerIdInput query = Resolved peerId →
  onLine s query
  = finishIteration (Some peerId) (selected s) (rl s)
      (out s ++ [MoveCursor; ClearLine]) p c ls.
Proof. intros Hc Hq Hp. unfold onLine. by rewrite Hc, Hq, Hp. Qed.

Lemma beginIteration_not_returned path i o :
  control (beginIteration path i o) ≠ Returned.
Proof. unfold beginIteration. by destruct (getOpenChannels _). Qed.

Lemma result_Some_ended s r :
  result s = Some r → ∀ p c ls, control s ≠ AwaitingInput p c ls.
Proof. unfold result. intros Hr p c ls Hc. by rewrite Hc in Hr. Qed.

(** An empty line ends the function wherever it stands: every run can be
    brought to an end. *)
Lemma selectIntermediateNodes_ends (i : Interface) (lines : list string) :
  is_Some (result (selectIntermediateNodes i (lines ++ [""]))).
Proof.
  rewrite selectIntermediateNodes_snoc.
  destruct (control (selectIntermediateNodes i lines)) as [p c ls| |err] eqn:Hc.
  - by rewrite (onLine_empty _ _ p c ls).
  - unfold onLine, result. by rewrite Hc, Hc.
  - unfold onLine, result. by rewrite Hc, Hc.
Qed.

(** A line that is not empty never ends the loop with the path as it was:
    below capacity it is either refused, and the loop goes on, or it adds
    a peer. *)
Lemma onLine_nonempty_changes_or_continues s query p c ls path :
  control s = AwaitingInput p c ls →
  (Z.of_nat (length (selected s)) < MAX_HOPS - 1)%Z →
  isEmptyQuery query = false →
  result (onLine s query) = Some (Resolved path) →
  path ≠ selected s.
Proof.
  intros Hc Hlen Hq Hr.
  assert (allSelected (selected s) = false) as Hroom.
  { unfold allSelected. apply bool_decide_eq_false. lia. }
  destruct (checkPeerIdInput query) as [peerId|err] eqn:Hp.
  - rewrite (onLine_parsed _ _ peerId p c ls) in Hr by done.
    destruct (decide (peerId = destination)) as [->|Hd].
    { rewrite finishIteration_destination, Hroom in Hr. simpl in Hr.
      unfold result in Hr.
      destruct (control (beginIteration _ _ _)) eqn:Hb; try done.
      by apply beginIteration_not_returned in Hb. }
    destruct (decide (peerId ∈ selected s)) as [Hin|Hin].
    + rewrite finishIteration_duplicate, Hroom in Hr by done. simpl in Hr.
      unfold result in Hr.
      destruct (control (beginIteration _ _ _)) eqn:Hb; try done.
      by apply beginIteration_not_returned in Hb.
    + rewrite finishIteration_push in Hr by done.
      unfold result in Hr.
      destruct (control (loop _ _ _ _)); try done.
      rewrite loop_selected in Hr. injection Hr as <-.
      intros Heq. apply (f_equal length) in Heq.
      rewrite length_app in Heq. simpl in Heq. lia.
  - rewrite (onLine_invalid _ _ err p c ls) in Hr by done. done.
Qed.

(** *** The properties of the specification *)

(** C1. For every sequence of submitted lines, the list that
    [selectIntermediateNodes] returns has at most [MAX_HOPS - 1] entries,
    no peer twice, and never the destination. [MAX_HOPS] is a constant of
    the node library: the bound needs it to leave room for one
    intermediate peer, [2 <= MAX_HOPS], since the body of the loop runs
    once before the length is tested. *)
Theorem C1_returned_path_bounded_distinct_without_destination
    (i : Interface) (lines : list string) (path : list PeerId) :
  (2 ≤ MAX_HOPS)%Z →
  result (selectIntermediateNodes i lines) = Some (Resolved path) →
  (Z.of_nat (length path) ≤ MAX_HOPS - 1)%Z
  ∧ NoDup path
  ∧ destination ∉ path.
Proof.
  intros Hmax Hr.
  pose proof (belowCapacity_selectIntermediateNodes i lines Hmax) as Hcap.
  destruct (pathOk_selectIntermediateNodes i lines) as [Hnd Hdest].
  unfold result, belowCapacity in *.
  destruct (control (selectIntermediateNodes i lines)); try done.
  by injection Hr as <-.
Qed.

(** C2, as the code has it. Submitting an empty line (the empty string, or
    a lone newline) at any point of the selection loop ends the loop:
    [selectIntermediateNodes] returns exactly the path accumulated so far,
    whatever is submitted afterwards. *)
Theorem C2_empty_line_returns_accumulated_path
    (i : Interface) (pre rest : list string) (query : string) p c ls :
  control (selectIntermediateNodes i pre) = AwaitingInput p c ls →
  query = "" ∨ query = String "010"%char EmptyString →
  result (selectIntermediateNodes i (pre ++ query :: rest))
  = Some (Resolved (selected (selectIntermediateNodes i pre))).
Proof.
  intros Hc Hq%isEmptyQuery_true.
  rewrite selectIntermediateNodes_app. simpl.
  rewrite (onLine_empty _ _ p c ls) by done.
  by rewrite fold_onLine_ended.
Qed.

(** What the interface holds once the selection loop is over, by whichever
    way (an empty line, all peers selected, an exception of the
    open-channel query, after any refusals and parse failures): the prompt,
    the completer and the functions [rl.listeners('line')] listed when the
    selector was called, every function attached by [rl.on]; or the
    interface untouched, when the first open-channel query fails. *)
Lemma interface_when_over
    (i : Interface) (lines : list string) (r : Promise (list PeerId)) :
  result (selectIntermediateNodes i lines) = Some r →
  rl (selectIntermediateNodes i lines) = reattached i
  ∨ rl (selectIntermediateNodes i lines) = i.
Proof.
  intros Hr. pose proof (saved_selectIntermediateNodes i lines) as Hs.
  unfold saved, result in *.
  destruct (control (selectIntermediateNodes i lines)); [done|by left|].
  destruct Hs; [by right|by left].
Qed.

(** With no listener of [rl.once] among those of the host, the interface
    is back exactly as it was. *)
Lemma interface_restored_without_once
    (i : Interface) (lines : list string) (r : Promise (list PeerId)) :
  (∀ f, OnceWrapper f ∉ lineListeners i) →
  result (selectIntermediateNodes i lines) = Some r →
  rl (selectIntermediateNodes i lines) = i.
Proof.
  intros Hno Hr. destruct (interface_when_over i lines r Hr) as [->| ->];
    [by apply reattached_without_once|done].
Qed.

(** C4. When an accepted peer brings the length of the path to
    [MAX_HOPS - 1], the loop ends with that iteration: the function returns
    the path without an empty line being submitted, whatever lines
    follow. *)
Theorem C4_full_path_ends_loop
    (i : Interface) (pre rest : list string) (query : string)
    (peerId : PeerId) p c ls :
  control (selectIntermediateNodes i pre) = AwaitingInput p c ls →
  isEmptyQuery query = false →
  checkPeerIdInput query = Resolved peerId →
  peerId ≠ destination →
  peerId ∉ selected (selectIntermediateNodes i pre) →
  (Z.of_nat (length (selected (selectIntermediateNodes i pre) ++ [peerId]))
   >= MAX_HOPS - 1)%Z →
  result (selectIntermediateNodes i (pre ++ query :: rest))
  = Some (Resolved (selected (selectIntermediateNodes i pre) ++ [peerId])).
Proof.
  intros Hc Hq Hp Hd Hin Hfull.
  rewrite selectIntermediateNodes_app. simpl.
  rewrite (onLine_parsed _ _ peerId p c ls) by done.
  rewrite finishIteration_push by done.
  unfold allSelected. rewrite bool_decide_eq_true_2 by done. simpl.
  by rewrite fold_onLine_ended.
Qed.

(** C5. A line that parses to the destination, or to a peer already in the
    path, is refused: the refusal is written to the console, the path is
    unchanged and the next iteration of the loop begins, on the interface
    as lines 198-202 have put it back ([MAX_HOPS] leaving room for one
    intermediate peer, as in C1). *)
Theorem C5_refused_peer_keeps_path_and_loop
    (i : Interface) (pre : list string) (query : string)
    (peerId : PeerId) p c ls :
  (2 ≤ MAX_HOPS)%Z →
  control (selectIntermediateNodes i pre) = AwaitingInput p c ls →
  isEmptyQuery query = false →
  checkPeerIdInput query = Resolved peerId →
  peerId = destination ∨ peerId ∈ selected (selectIntermediateNodes i pre) →
  let s := selectIntermediateNodes i pre in
  let s' := selectIntermediateNodes i (pre ++ [query]) in
  let report :=
    if bool_decide (peerId = destination) then sameAsDestinationText
    else alreadySelectedText in
  s' = beginIteration (selected s) (reattached i)
         (log (out s ++ [MoveCursor; ClearLine]) report)
  ∧ selected s' = selected s
  ∧ control s' ≠ Returned.
Proof.
  intros Hmax Hc Hq Hp Hrej s s' report. subst s'.
  rewrite selectIntermediateNodes_snoc. fold s.
  pose proof (belowCapacity_selectIntermediateNodes i pre Hmax) as Hcap.
  pose proof (saved_selectIntermediateNodes i pre) as Hsaved.
  unfold belowCapacity, saved in *. fold s in Hc, Hcap, Hsaved, Hrej.
  rewrite Hc in Hcap, Hsaved.
  assert (allSelected (selected s) = false) as Hroom.
  { unfold allSelected. apply bool_decide_eq_false. lia. }
  assert (onLine s query
          = beginIteration (selected s) (reattached i)
              (log (out s ++ [MoveCursor; ClearLine]) report)) as ->.
  { rewrite (onLine_parsed _ _ peerId p c ls) by done. subst report.
    case_bool_decide as Hd.
    - subst peerId. by rewrite finishIteration_destination, Hroom, Hsaved.
    - destruct Hrej as [?|Hin]; [done|].
      by rewrite finishIteration_duplicate, Hroom, Hsaved. }
  split; [done|]. split.
  - apply beginIteration_selected.
  - apply beginIteration_not_returned.
Qed.

(** C6. A line that [checkPeerIdInput] fails to parse leaves the path as it
    is; the error is written to the console, the line is dropped, and the
    selector keeps awaiting a line in the same iteration: nothing is
    returned or thrown. *)
Theorem C6_parse_failure_keeps_awaiting
    (s : State) (query : string) (err : Error) p c ls :
  control s = AwaitingInput p c ls →
  isEmptyQuery query = false →
  checkPeerIdInput query = Rejected err →
  onLine s query
  = mkState (selected s) (rl s)
      (out s ++ [ConsoleLog (styleValue (Str (message err)) (Some "failure"))])
      (AwaitingInput p c ls)
  ∧ result (onLine s query) = None.
Proof.
  intros Hc Hq Hp. rewrite (onLine_invalid _ _ err p c ls) by done.
  by split.
Qed.

(** C7, as the code has it. No submitted line and no failure of the parser
    makes [selectIntermediateNodes] throw: as long as the open-channel
    query does not fail, the function never throws. A failure of that
    query is not caught in the function and leaves it as an exception (the
    interface being as it was handed in). *)
Theorem C7_throws_only_when_open_channel_query_fails
    (i : Interface) (lines : list string) :
  (∀ peer err, getOpenChannels peer ≠ Rejected err) →
  ∀ err, result (selectIntermediateNodes i lines) ≠ Some (Rejected err).
Proof.
  intros Hquery err Hr.
  pose proof (threwFromQuery_selectIntermediateNodes i lines) as Ht.
  unfold threwFromQuery, result in *.
  destruct (control (selectIntermediateNodes i lines)) as [| |e]; try done.
  injection Hr as ->. eapply Hquery. by apply Ht.
Qed.

(** What the console shows of the iteration that awaits a line: after
    what was there when the iteration began, the text of line 125, then
    the text of line 133 exactly when the reference peer has no open
    channel, then only the errors of the lines the parser refused since. *)
Definition iterationConsole (s : State) : Prop :=
  ∀ p c ls, control s = AwaitingInput p c ls →
    ∃ openChannels o errs,
      getOpenChannels (lastSelected (selected s)) = Resolved openChannels
      ∧ out s
        = o ++ ConsoleLog (selectText (length (selected s)))
            :: match openChannels with
               | [] => [ConsoleLog noPeersText]
               | _ :: _ => []
               end
            ++ map (fun err =>
                      ConsoleLog (styleValue (Str (message err)) (Some "failure")))
                   errs.

Lemma iterationConsole_loop done path i o :
  iterationConsole (loop done path i o).
Proof.
  destruct (loop_cases done path i o)
    as [[_ ->]|[(_ & ? & _ & ->)|(_ & chans & Hq & ->)]];
    intros p c ls; simpl; try done.
  intros _. exists chans, o, []. split; [done|].
  unfold announce, log. destruct chans; simpl.
  - by rewrite <- app_assoc.
  - done.
Qed.

Lemma iterationConsole_selectIntermediateNodes i lines :
  iterationConsole (selectIntermediateNodes i lines).
Proof.
  apply selectIntermediateNodes_ind; [apply iterationConsole_loop|].
  intros s query Hs.
  destruct (onLine_cases s query)
    as [[_ ->]|[(err & _ & _ & ->)|(p & c & ls & d & path' & o' & Hc & -> & _)]];
    try done; [|apply iterationConsole_loop].
  intros p c ls Hc. simpl in *.
  destruct (Hs p c ls Hc) as (chans & o & errs & Hq & Hout).
  exists chans, o, (errs ++ [err]). split; [done|].
  unfold log. rewrite Hout, map_app. simpl.
  by rewrite <- !app_assoc, <- app_comm_cons, <- app_assoc.
Qed.

(** C8. Whenever the selector awaits a line, the completer offers the
    peers with an open channel from the reference peer (the last peer of
    the path or, the path being empty, the node's own identifier),
    filtered by the prefix typed. In that very iteration the operator is
    told when there is none: the console of the iteration is its prompt
    text, then the text of line 133 exactly when the reference peer has no
    open channel, then nothing but the errors of refused lines. A peer
    typed by hand is still taken. *)
Theorem C8_completer_offers_open_channels_of_reference_peer
    (i : Interface) (lines : list string) p c ls :
  control (selectIntermediateNodes i lines) = AwaitingInput p c ls →
  let s := selectIntermediateNodes i lines in
  let reference :=
    match last (selected s) with Some peer => peer | None => self end in
  ∃ openChannels o errs,
    getOpenChannels reference = Resolved openChannels
    ∧ (∀ line, complete (completer (rl s)) line
         = Some (filter (fun peerId => String.prefix line peerId = true)
                        (map toB58String openChannels), line))
    ∧ out s
      = o ++ ConsoleLog (selectText (length (selected s)))
          :: match openChannels with
             | [] => [ConsoleLog noPeersText]
             | _ :: _ => []
             end
          ++ map (fun err =>
                    ConsoleLog (styleValue (Str (message err)) (Some "failure")))
                 errs
    ∧ (∀ query peerId,
         isEmptyQuery query = false →
         checkPeerIdInput query = Resolved peerId →
         peerId ≠ destination → peerId ∉ selected s →
         selected (onLine s query) = selected s ++ [peerId]).
Proof.
  intros Hc s reference.
  destruct (offersOpenChannels_selectIntermediateNodes i lines p c ls Hc)
    as (chans & Hq & Hrl & _).
  destruct (iterationConsole_selectIntermediateNodes i lines p c ls Hc)
    as (chans' & o & errs & Hq' & Hout).
  assert (chans' = chans) as -> by congruence.
  exists chans, o, errs. fold s in Hrl, Hout.
  split; [done|]. split; [|split; [done|]].
  - intros line. by rewrite Hrl.
  - intros query peerId Hne Hp Hd Hin.
    rewrite (onLine_parsed _ _ peerId p c ls) by done.
    rewrite finishIteration_push by done. apply loop_selected.
Qed.

(** C10. The node's own identifier is taken as an intermediate peer like
    any other: when a line parses to it, it is not the destination and it
    is not yet in the path, it is appended, and nothing is refused. *)
Theorem C10_own_identifier_is_accepted
    (s : State) (query : string) p c ls :
  control s = AwaitingInput p c ls →
  isEmptyQuery query = false →
  checkPeerIdInput query = Resolved self →
  self ≠ destination →
  self ∉ selected s →
  onLine s query
  = loop (allSelected (selected s ++ [self])) (selected s ++ [self])
      (mkInterface p c ls) (out s ++ [MoveCursor; ClearLine])
  ∧ selected (onLine s query) = selected s ++ [self].
Proof.
  intros Hc Hq Hp Hd Hin.
  rewrite (onLine_parsed _ _ self p c ls) by done.
  rewrite finishIteration_push by done.
  split; [done|apply loop_selected].
Qed.

(** *** Further properties of the selection loop *)

(** The peer a submitted line stands for: none for an empty line or one
    the parser refuses. *)
Definition parsedPeer (query : string) : option PeerId :=
  if isEmptyQuery query then None
  else match checkPeerIdInput query with
       | Resolved peerId => Some peerId
       | Rejected _ => None
       end.

(** Two states that differ at most in what was written to the terminal. *)
Definition sameButOutput (s t : State) : Prop :=
  selected s = selected t ∧ rl s = rl t ∧ control s = control t.

(** One line leaves the path as it is or appends the peer it parses to. *)
Lemma onLine_selected s query :
  selected (onLine s query) = selected s
  ∨ ∃ x, parsedPeer query = Some x ∧ x ≠ destination ∧ (x ∉ selected s)
         ∧ selected (onLine s query) = selected s ++ [x].
Proof.
  destruct (control s) as [p c ls| |err] eqn:Hc;
    [|left; unfold onLine; by rewrite Hc..].
  destruct (isEmptyQuery query) eqn:Hq.
  { left. by rewrite (onLine_empty _ _ p c ls). }
  destruct (checkPeerIdInput query) as [x|err] eqn:Hp.
  - rewrite (onLine_parsed _ _ x p c ls) by done.
    destruct (decide (x = destination)) as [->|Hd].
    { left. rewrite finishIteration_destination. apply loop_selected. }
    destruct (decide (x ∈ selected s)) as [Hin|Hin].
    + left. rewrite finishIteration_duplicate by done. apply loop_selected.
    + right. exists x. rewrite finishIteration_push by done.
      unfold parsedPeer. rewrite Hq, Hp.
      repeat split; try done. apply loop_selected.
  - left. by rewrite (onLine_invalid _ _ err p c ls).
Qed.

Lemma fold_onLine_selected_prefix (rest : list string) (s : State) :
  selected s `prefix_of` selected (fold_left onLine rest s).
Proof.
  revert s. induction rest as [|q rest IH]; intros s; simpl; [done|].
  trans (selected (onLine s q)); [|apply IH].
  destruct (onLine_selected s q) as [->|(x & _ & _ & _ & ->)];
    [done|by apply prefix_app_r].
Qed.

(** A parsed line in an awaiting state goes through the loop test with
    [done] still false. *)
Lemma finishIteration_parsed_loop peerId path i o p c ls :
  ∃ path' o',
    finishIteration (Some peerId) path i o p c ls
    = loop (allSelected path') path' (mkInterface p c ls) o'.
Proof.
  destruct (decide (peerId = destination)) as [->|Hd].
  { eexists _, _. apply finishIteration_destination. }
  destruct (decide (peerId ∈ path)) as [Hin|Hin].
  - eexists _, _. by apply finishIteration_duplicate.
  - eexists _, _. by apply finishIteration_push.
Qed.

Lemma loop_returned done path i o :
  control (loop done path i o) = Returned → done = true.
Proof.
  destruct done; [done|]. simpl. intros Hc.
  by apply beginIteration_not_returned in Hc.
Qed.

Lemma returned_without_empty_line_full (i : Interface) (lines : list string) :
  Forall (fun query => isEmptyQuery query = false) lines →
  control (selectIntermediateNodes i lines) = Returned →
  allSelected (selected (selectIntermediateNodes i lines)) = true.
Proof.
  induction lines as [|q lines IH] using rev_ind; intros Hne Hc.
  - unfold selectIntermediateNodes in Hc. simpl in Hc.
    by apply beginIteration_not_returned in Hc.
  - rewrite Forall_app, Forall_singleton in Hne. destruct Hne as [Hne Hq].
    rewrite selectIntermediateNodes_snoc. rewrite selectIntermediateNodes_snoc in Hc.
    specialize (IH Hne).
    set (s := selectIntermediateNodes i lines) in *.
    destruct (control s) as [p c ls| |err] eqn:Hs.
    + destruct (checkPeerIdInput q) as [x|err] eqn:Hp.
      * rewrite (onLine_parsed _ _ x p c ls) by done.
        rewrite (onLine_parsed _ _ x p c ls) in Hc by done.
        destruct (finishIteration_parsed_loop x (selected s) (rl s)
          (out s ++ [MoveCursor; ClearLine]) p c ls) as (path' & o' & Heq).
        rewrite Heq. rewrite Heq in Hc. rewrite loop_selected.
        by apply loop_returned in Hc.
      * by rewrite (onLine_invalid _ _ err p c ls) in Hc.
    + unfold onLine. rewrite Hs. by apply IH.
    + unfold onLine in Hc. rewrite Hs in Hc. congruence.
Qed.

Lemma onLine_sameButOutput s t query :
  sameButOutput s t → sameButOutput (onLine s query) (onLine t query).
Proof.
  destruct s as [path1 rl1 out1 ctl1], t as [path2 rl2 out2 ctl2].
  intros (Hp & Hi & Hc). simpl in *. subst path2 rl2 ctl2.
  unfold sameButOutput, onLine, finishIteration, loop, beginIteration; simpl.
  repeat (case_match; simpl; simplify_eq; try done).
Qed.

Lemma fold_onLine_sameButOutput (lines : list string) s t :
  sameButOutput s t →
  sameButOutput (fold_left onLine lines s) (fold_left onLine lines t).
Proof.
  revert s t. induction lines as [|q lines IH]; intros s t Hst; simpl; [done|].
  by apply IH, onLine_sameButOutput.
Qed.

(** X1. The path only grows, and at its end: what has been selected after
    some lines is a prefix of what is selected after any further lines. *)
Theorem selected_grows_by_appending
    (i : Interface) (pre rest : list string) :
  selected (selectIntermediateNodes i pre)
  `prefix_of` selected (selectIntermediateNodes i (pre ++ rest)).
Proof.
  rewrite selectIntermediateNodes_app. apply fold_onLine_selected_prefix.
Qed.

(** X2. The path is made of the peers the submitted lines parse to, in the
    order of submission: it is a sublist of the parsed lines, so every
    peer in it was typed by the operator. *)
Theorem selected_sublist_of_parsed_lines
    (i : Interface) (lines : list string) :
  selected (selectIntermediateNodes i lines) `sublist_of` omap parsedPeer lines
  ∧ ∀ x, x ∈ selected (selectIntermediateNodes i lines) →
      ∃ query, query ∈ lines ∧ isEmptyQuery query = false
               ∧ checkPeerIdInput query = Resolved x.
Proof.
  assert (selected (selectIntermediateNodes i lines)
          `sublist_of` omap parsedPeer lines) as Hsub.
  { induction lines as [|q lines IH] using rev_ind.
    - unfold selectIntermediateNodes. simpl. by rewrite beginIteration_selected.
    - rewrite selectIntermediateNodes_snoc, omap_app.
      destruct (onLine_selected (selectIntermediateNodes i lines) q)
        as [->|(x & Hx & _ & _ & ->)].
      + by apply sublist_inserts_r.
      + simpl. rewrite Hx. simpl. by apply sublist_app. }
  split; [done|]. intros x Hx.
  eapply elem_of_sublist in Hx; [|exact Hsub].
  apply list_elem_of_omap in Hx as (query & Hin & Hq).
  exists query. split; [done|]. unfold parsedPeer in Hq.
  destruct (isEmptyQuery query); [done|].
  destruct (checkPeerIdInput query); by simplify_eq.
Qed.

(** X3. When no submitted line is empty, the function returns only with a
    full path, of exactly [MAX_HOPS - 1] peers. *)
Theorem returned_without_empty_line_has_all_peers
    (i : Interface) (lines : list string) (path : list PeerId) :
  (2 ≤ MAX_HOPS)%Z →
  Forall (fun query => isEmptyQuery query = false) lines →
  result (selectIntermediateNodes i lines) = Some (Resolved path) →
  Z.of_nat (length path) = (MAX_HOPS - 1)%Z.
Proof.
  intros Hmax Hne Hr.
  pose proof (belowCapacity_selectIntermediateNodes i lines Hmax) as Hcap.
  pose proof (returned_without_empty_line_full i lines Hne) as Hfull.
  unfold result, belowCapacity, allSelected in *.
  destruct (control (selectIntermediateNodes i lines)); try done.
  injection Hr as <-. specialize (Hfull eq_refl).
  apply bool_decide_eq_true in Hfull. lia.
Qed.

(** X4. While the selector awaits a line it has the interface to itself:
    the prompt is empty, its own listener is the only ['line'] listener
    (those of the host are detached), and what it keeps for the end of the
    iteration is what it was called with: the prompt, the completer and
    the functions [rl.listeners('line')] listed. *)
Theorem awaiting_selector_owns_interface
    (i : Interface) (lines : list string) p c ls :
  control (selectIntermediateNodes i lines) = AwaitingInput p c ls →
  _prompt (rl (selectIntermediateNodes i lines)) = ""
  ∧ lineListeners (rl (selectIntermediateNodes i lines)) = [SelectLine]
  ∧ mkInterface p c ls
    = mkInterface (_prompt i) (completer i) (listeners i).
Proof.
  intros Hc.
  destruct (offersOpenChannels_selectIntermediateNodes i lines p c ls Hc)
    as (chans & _ & -> & _).
  pose proof (saved_selectIntermediateNodes i lines) as Hs.
  unfold saved in Hs. by rewrite Hc in Hs.
Qed.

(** X5. When the open-channel query of the node itself fails, the function
    throws that error before it listens to anything: for every list of
    lines only the first prompt text was written, no peer is selected and
    the interface was never touched. *)
Theorem first_query_failure_throws_before_any_line
    (i : Interface) (lines : list string) (err : Error) :
  getOpenChannels self = Rejected err →
  selectIntermediateNodes i lines
  = mkState [] i [ConsoleLog (selectText 0)] (Threw err).
Proof.
  intros Hq. unfold selectIntermediateNodes. simpl.
  rewrite (beginIteration_rejected _ _ _ err) by done.
  by apply fold_onLine_ended.
Qed.

(** X6. When the function throws, the error is the one of the open-channel
    query for the reference peer of the path selected so far; neither the
    parser nor a refused peer is ever the cause. *)
Theorem thrown_error_is_of_open_channel_query
    (i : Interface) (lines : list string) (err : Error) :
  result (selectIntermediateNodes i lines) = Some (Rejected err) →
  getOpenChannels (lastSelected (selected (selectIntermediateNodes i lines)))
  = Rejected err.
Proof.
  intros Hr. apply threwFromQuery_selectIntermediateNodes.
  unfold result in Hr.
  destruct (control (selectIntermediateNodes i lines)); by simplify_eq.
Qed.

(** X7. The completer of line 146 offers exactly the valid peers that
    start with what was typed, in their order, and hands the typed line
    back; on an empty line it offers them all. *)
Theorem completer_hits_are_valid_peers_with_prefix
    (validPeers : list string) (line : string) :
  ∃ hits,
    complete (PrefixCompleter validPeers) line = Some (hits, line)
    ∧ hits `sublist_of` validPeers
    ∧ (∀ peerId, peerId ∈ hits ↔
         peerId ∈ validPeers ∧ String.prefix line peerId = true)
    ∧ complete (PrefixCompleter validPeers) "" = Some (validPeers, "").
Proof.
  eexists. split; [reflexivity|]. split; [apply sublist_filter|].
  split; [intros peerId; rewrite list_elem_of_filter; split; intros [? ?]; done|].
  simpl. f_equal. f_equal.
  induction validPeers as [|v vs IH]; [done|].
  rewrite filter_cons_True; [by rewrite IH|by destruct v].
Qed.

(** X8. The selector never waits for a peer it has no room for: while it
    awaits a line the path is shorter than [MAX_HOPS - 1]. *)
Theorem awaiting_selector_has_room
    (i : Interface) (lines : list string) p c ls :
  (2 ≤ MAX_HOPS)%Z →
  control (selectIntermediateNodes i lines) = AwaitingInput p c ls →
  (Z.of_nat (length (selected (selectIntermediateNodes i lines)))
   < MAX_HOPS - 1)%Z.
Proof.
  intros Hmax Hc.
  pose proof (belowCapacity_selectIntermediateNodes i lines Hmax) as Hcap.
  unfold belowCapacity in Hcap. by rewrite Hc in Hcap.
Qed.

(** X9. As long as the open-channel query does not fail, one more empty
    line always makes the function return, with the path selected by the
    lines before it: every selection can be brought to an end. *)
Theorem empty_line_always_returns_selected
    (i : Interface) (lines : list string) :
  (∀ peer err, getOpenChannels peer ≠ Rejected err) →
  result (selectIntermediateNodes i (lines ++ [""]))
  = Some (Resolved (selected (selectIntermediateNodes i lines))).
Proof.
  intros Hquery. rewrite selectIntermediateNodes_snoc.
  pose proof (threwFromQuery_selectIntermediateNodes i lines) as Ht.
  destruct (control (selectIntermediateNodes i lines)) as [p c ls| |err] eqn:Hc.
  - by rewrite (onLine_empty _ _ p c ls).
  - unfold onLine, result. by rewrite Hc, Hc.
  - by destruct (Hquery _ _ (Ht err Hc)).
Qed.

(** X10. A line the parser refuses changes nothing but the console: with
    or without it the path, the interface, the point the function has
    reached and its result are the same, whatever lines come before and
    after. *)
Theorem malformed_line_only_writes_to_console
    (i : Interface) (pre rest : list string) (query : string) (err : Error) :
  isEmptyQuery query = false →
  checkPeerIdInput query = Rejected err →
  sameButOutput (selectIntermediateNodes i (pre ++ query :: rest))
                (selectIntermediateNodes i (pre ++ rest))
  ∧ result (selectIntermediateNodes i (pre ++ query :: rest))
    = result (selectIntermediateNodes i (pre ++ rest)).
Proof.
  intros Hq Hp.
  assert (sameButOutput (selectIntermediateNodes i (pre ++ query :: rest))
                        (selectIntermediateNodes i (pre ++ rest))) as Hsame.
  { rewrite !selectIntermediateNodes_app. simpl.
    apply fold_onLine_sameButOutput.
    destruct (control (selectIntermediateNodes i pre)) as [p c ls| |e] eqn:Hc.
    - by rewrite (onLine_invalid _ _ err p c ls).
    - unfold onLine. by rewrite Hc.
    - unfold onLine. by rewrite Hc. }
  split; [done|]. destruct Hsame as (Hsel & _ & Hc).
  unfold result. by rewrite Hc, Hsel.
Qed.

End Destination.
End Selector.

(** ** A node with a handful of peers

    Concrete collaborators, on which the statements above are exercised:
    peers are named by their identifier string, [MAX_HOPS] is 3 as in the
    node library, and the peer directory knows three channels. *)

Module Demo.

Definition MAX_HOPS : Z := 3.

Definition self : string := "self".

Definition destination : string := "dave".

Definition getOpenChannels (peer : string) : Promise (list string) :=
  Resolved (if bool_decide (peer = "self") then ["alice"; "bob"]
            else if bool_decide (peer = "alice") then ["carol"]
            else []).

(** A peer directory whose indexer is not available. *)
Definition getOpenChannelsFailing (peer : string) : Promise (list string) :=
  Rejected (mkError "Indexer is not available").

Definition checkPeerIdInput (query : string) : Promise string :=
  if bool_decide (query ∈ ["self"; "alice"; "bob"; "carol"; "dave"])
  then Resolved query
  else Rejected (mkError "Invalid peerId.").

Definition toB58String (peer : string) : string := peer.

Definition styleValue (value : Printable) (type : option string) : string :=
  match value with
  | Str s => s
  | Num n => String (ascii_of_nat (48 + n)) EmptyString
  end.

(** The interface of the host application: its prompt, its completer and
    two listeners. *)
Definition hostInterface : @Interface nat nat :=
  mkInterface "> " (Host 7) [HostLine 1; HostLine 2].

Definition select (lines : list string) : @State string nat nat :=
  selectIntermediateNodes MAX_HOPS self getOpenChannels checkPeerIdInput
    toB58String styleValue destination hostInterface lines.

Definition selectFailing (lines : list string) : @State string nat nat :=
  selectIntermediateNodes MAX_HOPS self getOpenChannelsFailing
    checkPeerIdInput toB58String styleValue destination hostInterface lines.

(** The same host, its second listener attached by [rl.once]. *)
Definition onceInterface : @Interface nat nat :=
  mkInterface "> " (Host 7) [HostLine 1; OnceWrapper 2].

Definition selectOnce (lines : list string) : @State string nat nat :=
  selectIntermediateNodes MAX_HOPS self getOpenChannels checkPeerIdInput
    toB58String styleValue destination onceInterface lines.

(** The same node had [MAX_HOPS] been 1. *)
Definition selectOneHop (lines : list string) : @State string nat nat :=
  selectIntermediateNodes 1 self getOpenChannels checkPeerIdInput
    toB58String styleValue destination hostInterface lines.

End Demo.

(** *** The statements on the demonstration node *)

(** With [MAX_HOPS] at 1 the first iteration still takes a peer: the bound
    of C1 and the continuation of C5 need [2 <= MAX_HOPS]. *)
Example selectOneHop_takes_a_peer :
  result (Demo.selectOneHop ["bob"]) = Some (Resolved ["bob"])
  ∧ result (Demo.selectOneHop ["dave"]) = Some (Resolved []).
Proof. by split. Qed.

Lemma C1_witness :
  (2 ≤ Demo.MAX_HOPS)%Z
  ∧ result (Demo.select ["alice"; "carol"]) = Some (Resolved ["alice"; "carol"])
  ∧ (Z.of_nat (length ["alice"; "carol"]) ≤ Demo.MAX_HOPS - 1)%Z
  ∧ NoDup ["alice"; "carol"]
  ∧ Demo.destination ∉ ["alice"; "carol"].
Proof.
  assert (2 ≤ Demo.MAX_HOPS)%Z as Hmax by (unfold Demo.MAX_HOPS; lia).
  assert (result (Demo.select ["alice"; "carol"])
          = Some (Resolved ["alice"; "carol"])) as Hr by reflexivity.
  split; [exact Hmax|]. split; [exact Hr|].
  exact (C1_returned_path_bounded_distinct_without_destination
           Demo.MAX_HOPS Demo.self Demo.getOpenChannels Demo.checkPeerIdInput
           Demo.toB58String Demo.styleValue Demo.destination
           Demo.hostInterface ["alice"; "carol"] ["alice"; "carol"] Hmax Hr).
Defined.

(** A line of one space is not empty: it goes to the parser, which refuses
    it, and the selector keeps awaiting; the path returned later is not the
    one accumulated when the space was submitted. *)
Lemma C2_counterexample_whitespace_only_line :
  isEmptyQuery " " = false
  ∧ result (Demo.select [" "]) = None
  ∧ result (Demo.select [" "; "alice"; ""]) = Some (Resolved ["alice"])
  ∧ result (Demo.select [" "; "alice"; ""])
    ≠ Some (Resolved (selected (Demo.select []))).
Proof. repeat split. discriminate. Qed.

Lemma C2_witness :
  control (Demo.select ["alice"])
  = AwaitingInput "> " (Host 7) [HostLine 1; HostLine 2]
  ∧ result (Demo.select (["alice"] ++ "" :: ["bob"; "carol"]))
    = Some (Resolved (selected (Demo.select ["alice"]))).
Proof.
  split; [reflexivity|].
  apply (C2_empty_line_returns_accumulated_path
           Demo.MAX_HOPS Demo.self Demo.getOpenChannels Demo.checkPeerIdInput
           Demo.toB58String Demo.styleValue Demo.destination
           Demo.hostInterface ["alice"] ["bob"; "carol"] ""
           "> " (Host 7) [HostLine 1; HostLine 2]).
  - reflexivity.
  - left. reflexivity.
Defined.

(** C3. The prompt and the completer are put back, and so are the
    functions of the ['line'] listeners, but not the way they were
    attached: a listener the host had attached by [rl.once] is read by
    [rl.listeners('line')] as the function it wraps (line 141) and put back
    by [rl.on] (line 202). Here the host has one of each kind and the
    operator leaves with an empty line: the function returns, and the
    interface is not the one it was given, the second listener now being
    attached for good. *)
Theorem C3_once_listener_comes_back_permanent :
  result (Demo.selectOnce [""]) = Some (Resolved [])
  ∧ lineListeners Demo.onceInterface = [HostLine 1; OnceWrapper 2]
  ∧ rl (Demo.selectOnce [""])
    = mkInterface "> " (Host 7) [HostLine 1; HostLine 2]
  ∧ rl (Demo.selectOnce [""]) ≠ Demo.onceInterface.
Proof. repeat split. discriminate. Qed.

(** On a host without such a listener the interface is back as it was. *)
Example interface_restored_on_host :
  rl (Demo.select ["zzz"; "alice"; "dave"; ""]) = Demo.hostInterface.
Proof. reflexivity. Qed.

(** The interface is as it was also when the function is left by the
    exception of the open-channel query. *)
Example interface_restored_when_query_fails :
  rl (Demo.selectFailing ["alice"]) = Demo.hostInterface.
Proof. reflexivity. Qed.

Lemma C4_witness :
  result (Demo.select (["alice"] ++ "carol" :: ["bob"; ""]))
  = Some (Resolved (selected (Demo.select ["alice"]) ++ ["carol"])).
Proof.
  apply (C4_full_path_ends_loop
           Demo.MAX_HOPS Demo.self Demo.getOpenChannels Demo.checkPeerIdInput
           Demo.toB58String Demo.styleValue Demo.destination
           Demo.hostInterface ["alice"] ["bob"; ""] "carol" "carol"
           "> " (Host 7) [HostLine 1; HostLine 2]).
  - reflexivity.
  - reflexivity.
  - reflexivity.
  - discriminate.
  - change ("carol" ∉ ["alice"]). by intros ?%list_elem_of_singleton.
  - vm_compute. discriminate.
Defined.

Lemma C5_witness :
  selected (Demo.select (["alice"] ++ ["alice"])) = selected (Demo.select ["alice"])
  ∧ control (Demo.select (["alice"] ++ ["alice"])) ≠ Returned.
Proof.
  apply (C5_refused_peer_keeps_path_and_loop
           Demo.MAX_HOPS Demo.self Demo.getOpenChannels Demo.checkPeerIdInput
           Demo.toB58String Demo.styleValue Demo.destination
           Demo.hostInterface ["alice"] "alice" "alice"
           "> " (Host 7) [HostLine 1; HostLine 2]).
  - unfold Demo.MAX_HOPS. lia.
  - reflexivity.
  - reflexivity.
  - reflexivity.
  - right. change ("alice" ∈ ["alice"]). apply list_elem_of_here.
Defined.

Lemma C6_witness :
  result (onLine Demo.MAX_HOPS Demo.self Demo.getOpenChannels
            Demo.checkPeerIdInput Demo.toB58String Demo.styleValue
            Demo.destination (Demo.select ["alice"]) "zzz") = None.
Proof.
  apply (C6_parse_failure_keeps_awaiting
           Demo.MAX_HOPS Demo.self Demo.getOpenChannels Demo.checkPeerIdInput
           Demo.toB58String Demo.styleValue Demo.destination
           (Demo.select ["alice"]) "zzz" (mkError "Invalid peerId.")
           "> " (Host 7) [HostLine 1; HostLine 2]).
  - reflexivity.
  - reflexivity.
  - reflexivity.
Defined.

(** The open-channel query fails, nothing in the selector catches it, and
    the function throws before any line is read. *)
Lemma C7_counterexample_query_fails :
  result (Demo.selectFailing [])
  = Some (Rejected (mkError "Indexer is not available")).
Proof. reflexivity. Qed.

Lemma C7_witness :
  result (Demo.select ["zzz"; "dave"; "alice"; "alice"])
  ≠ Some (Rejected (mkError "Invalid peerId.")).
Proof.
  apply (C7_throws_only_when_open_channel_query_fails
           Demo.MAX_HOPS Demo.self Demo.getOpenChannels Demo.checkPeerIdInput
           Demo.toB58String Demo.styleValue Demo.destination
           Demo.hostInterface ["zzz"; "dave"; "alice"; "alice"]).
  intros peer err. unfold Demo.getOpenChannels. discriminate.
Defined.

(** Two iterations in a row on a peer without open channels: the operator
    is told in each. *)
Example no_peers_announced_in_each_iteration :
  out (Demo.select ["bob"; "dave"])
  = [ConsoleLog "Please select intermediate node 0: (leave empty to exit)";
     MoveCursor; ClearLine;
     ConsoleLog "Please select intermediate node 1: (leave empty to exit)";
     ConsoleLog
       "No peers with open channels found, you may enter a peer manually.";
     MoveCursor; ClearLine;
     ConsoleLog "Peer selected is same as destination peer.";
     ConsoleLog "Please select intermediate node 1: (leave empty to exit)";
     ConsoleLog
       "No peers with open channels found, you may enter a peer manually."].
Proof. reflexivity. Qed.

Lemma C8_witness :
  ∃ openChannels o errs,
    Demo.getOpenChannels "bob" = Resolved openChannels
    ∧ (∀ line, complete (completer (rl (Demo.select ["bob"; "dave"; "zzz"]))) line
         = Some (filter (fun peerId => String.prefix line peerId = true)
                        (map Demo.toB58String openChannels), line))
    ∧ out (Demo.select ["bob"; "dave"; "zzz"])
      = o ++ ConsoleLog (selectText Demo.styleValue 1)
          :: match openChannels with
             | [] => [ConsoleLog (noPeersText Demo.styleValue)]
             | _ :: _ => []
             end
          ++ map (fun err =>
                    ConsoleLog (Demo.styleValue (Str (message err))
                                                (Some "failure")))
                 errs
    ∧ (∀ query peerId,
         isEmptyQuery query = false →
         Demo.checkPeerIdInput query = Resolved peerId →
         peerId ≠ Demo.destination →
         peerId ∉ selected (Demo.select ["bob"; "dave"; "zzz"]) →
         selected (onLine Demo.MAX_HOPS Demo.self Demo.getOpenChannels
                     Demo.checkPeerIdInput Demo.toB58String Demo.styleValue
                     Demo.destination (Demo.select ["bob"; "dave"; "zzz"]) query)
         = selected (Demo.select ["bob"; "dave"; "zzz"]) ++ [peerId]).
Proof.
  exact (C8_completer_offers_open_channels_of_reference_peer
           Demo.MAX_HOPS Demo.self Demo.getOpenChannels Demo.checkPeerIdInput
           Demo.toB58String Demo.styleValue Demo.destination
           Demo.hostInterface ["bob"; "dave"; "zzz"]
           "> " (Host 7) [HostLine 1; HostLine 2] eq_refl).
Defined.

Lemma C10_witness :
  selected (onLine Demo.MAX_HOPS Demo.self Demo.getOpenChannels
              Demo.checkPeerIdInput Demo.toB58String Demo.styleValue
              Demo.destination (Demo.select ["bob"]) "self")
  = selected (Demo.select ["bob"]) ++ [Demo.self].
Proof.
  apply (C10_own_identifier_is_accepted
           Demo.MAX_HOPS Demo.self Demo.getOpenChannels Demo.checkPeerIdInput
           Demo.toB58String Demo.styleValue Demo.destination
           (Demo.select ["bob"]) "self"
           "> " (Host 7) [HostLine 1; HostLine 2]).
  - reflexivity.
  - reflexivity.
  - reflexivity.
  - discriminate.
  - change ("self" ∉ ["bob"]). by intros ?%list_elem_of_singleton.
Defined.

(** *** The further properties on the demonstration node *)

Lemma selected_sublist_of_parsed_lines_witness :
  ∃ query, query ∈ ["zzz"; "alice"] ∧ isEmptyQuery query = false
           ∧ Demo.checkPeerIdInput query = Resolved "alice".
Proof.
  apply (proj2 (selected_sublist_of_parsed_lines
           Demo.MAX_HOPS Demo.self Demo.getOpenChannels Demo.checkPeerIdInput
           Demo.toB58String Demo.styleValue Demo.destination
           Demo.hostInterface ["zzz"; "alice"]) "alice").
  change ("alice" ∈ ["alice"]). apply list_elem_of_here.
Defined.

Lemma returned_without_empty_line_has_all_peers_witness :
  Z.of_nat (length ["alice"; "carol"]) = (Demo.MAX_HOPS - 1)%Z.
Proof.
  apply (returned_without_empty_line_has_all_peers
           Demo.MAX_HOPS Demo.self Demo.getOpenChannels Demo.checkPeerIdInput
           Demo.toB58String Demo.styleValue Demo.destination
           Demo.hostInterface ["alice"; "dave"; "carol"] ["alice"; "carol"]).
  - unfold Demo.MAX_HOPS. lia.
  - repeat constructor.
  - reflexivity.
Defined.

Lemma awaiting_selector_owns_interface_witness :
  _prompt (rl (Demo.select ["alice"])) = ""
  ∧ lineListeners (rl (Demo.select ["alice"])) = [SelectLine]
  ∧ mkInterface "> " (Host 7) [HostLine 1; HostLine 2] = Demo.hostInterface.
Proof.
  exact (awaiting_selector_owns_interface
           Demo.MAX_HOPS Demo.self Demo.getOpenChannels Demo.checkPeerIdInput
           Demo.toB58String Demo.styleValue Demo.destination
           Demo.hostInterface ["alice"]
           "> " (Host 7) [HostLine 1; HostLine 2] eq_refl).
Defined.

Lemma first_query_failure_throws_before_any_line_witness :
  Demo.selectFailing ["alice"; ""]
  = mkState [] Demo.hostInterface
      [ConsoleLog (selectText Demo.styleValue 0)]
      (Threw (mkError "Indexer is not available")).
Proof.
  exact (first_query_failure_throws_before_any_line
           Demo.MAX_HOPS Demo.self Demo.getOpenChannelsFailing
           Demo.checkPeerIdInput Demo.toB58String Demo.styleValue
           Demo.destination Demo.hostInterface ["alice"; ""]
           (mkError "Indexer is not available") eq_refl).
Defined.

Lemma thrown_error_is_of_open_channel_query_witness :
  Demo.getOpenChannelsFailing
    (lastSelected Demo.self (selected (Demo.selectFailing ["alice"])))
  = Rejected (mkError "Indexer is not available").
Proof.
  exact (thrown_error_is_of_open_channel_query
           Demo.MAX_HOPS Demo.self Demo.getOpenChannelsFailing
           Demo.checkPeerIdInput Demo.toB58String Demo.styleValue
           Demo.destination Demo.hostInterface ["alice"]
           (mkError "Indexer is not available") eq_refl).
Defined.

Lemma awaiting_selector_has_room_witness :
  (Z.of_nat (length (selected (Demo.select ["alice"]))) < Demo.MAX_HOPS - 1)%Z.
Proof.
  apply (awaiting_selector_has_room
           Demo.MAX_HOPS Demo.self Demo.getOpenChannels Demo.checkPeerIdInput
           Demo.toB58String Demo.styleValue Demo.destination
           Demo.hostInterface ["alice"]
           "> " (Host 7) [HostLine 1; HostLine 2]).
  - unfold Demo.MAX_HOPS. lia.
  - reflexivity.
Defined.

Lemma empty_line_always_returns_selected_witness :
  result (Demo.select (["dave"; "alice"] ++ [""]))
  = Some (Resolved (selected (Demo.select ["dave"; "alice"]))).
Proof.
  apply (empty_line_always_returns_selected
           Demo.MAX_HOPS Demo.self Demo.getOpenChannels Demo.checkPeerIdInput
           Demo.toB58String Demo.styleValue Demo.destination
           Demo.hostInterface ["dave"; "alice"]).
  intros peer err. unfold Demo.getOpenChannels. discriminate.
Defined.

Lemma malformed_line_only_writes_to_console_witness :
  result (Demo.select (["alice"] ++ "zzz" :: ["carol"]))
  = result (Demo.select (["alice"] ++ ["carol"])).
Proof.
  apply (malformed_line_only_writes_to_console
           Demo.MAX_HOPS Demo.self Demo.getOpenChannels Demo.checkPeerIdInput
           Demo.toB58String Demo.styleValue Demo.destination
           Demo.hostInterface ["alice"] ["carol"] "zzz"
           (mkError "Invalid peerId.")).
  - reflexivity.
  - reflexivity.
Defined.

End SendMessage.

(** ** commands/listOpenChannels.ts *)

Module ListOpenChannels.

(** The line feed of the template literals. *)
Definition nl : string := String "010"%char EmptyString.

(** [s.padEnd(targetLength)]: spaces are added up to [targetLength]. *)
Fixpoint spaces (n : nat) : string :=
  match n with
  | O => EmptyString
  | S n => String " "%char (spaces n)
  end.

Definition padEnd (s : string) (targetLength : nat) : string :=
  s +:+ spaces (targetLength - String.length s).

(** The truth value of an optional string: [undefined] and the empty
    string are false. *)
Definition truthy (value : option string) : option string :=
  match value with
  | Some EmptyString => None
  | other => other
  end.

Section Command.

Context {AccountId Hash Balance PublicKey PeerId : Type}.

(** [styleValue] and [getPaddingLength] of ../utils, [chalk.gray] *)
Variable styleValue : Printable → option string → string.
Variable getPaddingLength : list string → nat.
Variable gray : string → string.
(** [u8aToHex], [moveDecimalPoint] of @hoprnet/hopr-utils *)
Variable u8aToHex : Hash → string.
Variable moveDecimalPoint : string → Z → string.
(** [pubKeyToPeerId] of @hoprnet/hopr-core/lib/utils, [peer.toB58String()] *)
Variable pubKeyToPeerId : PublicKey → Promise PeerId.
Variable toB58String : PeerId → string.
(** [utils.isPartyA] and [types.Balance.DECIMALS] of the connector *)
Variable isPartyA : AccountId → AccountId → bool.
Variable DECIMALS : Z.
(** [toString] and [sub] of the balances (big numbers) *)
Variable toString : Balance → string.
Variable sub : Balance → Balance → Balance.

(** A channel instance, as far as [execute] reads it. *)
Record Channel := mkChannel {
  channelId : Promise Hash;
  counterparty : option AccountId;
  balance : Promise Balance;
  balance_a : Promise Balance;
  offChainCounterparty : Promise PublicKey;
  status : Promise string
}.

(** [this.node.paymentChannels.account.address] *)
Variable address : Promise AccountId.
(** [getMyOpenChannelInstances(this.node)] of ../utils/openChannels *)
Variable getMyOpenChannelInstances : Promise (list Channel).

(** Lines 23-65. *)
Definition generateOutput (id myBalance totalBalance : string)
    (peerId status : option string) : string :=
  let toDisplay : list (string * string) :=
    [ ("Channel", styleValue (Str id) (Some "hash"));
      ("CounterParty",
       match truthy peerId with
       | Some peerId => styleValue (Str peerId) (Some "peerId")
       | None => gray "pre-opened"
       end);
      ("Status",
       match truthy status with
       | Some status => styleValue (Str status) (Some "highlight")
       | None => gray "UNKNOWN"
       end);
      ("Total Balance", styleValue (Str totalBalance) (Some "number"));
      ("My Balance", styleValue (Str myBalance) (Some "number")) ] in
  let paddingLength := getPaddingLength (map fst toDisplay) in
  String.concat ""
    (map (fun o => nl +:+ padEnd (fst o) paddingLength +:+ ":  " +:+ snd o)
         toDisplay).

(** Lines 82-114: the body of the [for] loop, giving what it pushes. *)
Definition describe (self : AccountId) (channel : Channel) : Promise string :=
  let! hash := channelId channel in
  let id := u8aToHex hash in
  match counterparty channel with
  | None => Resolved (generateOutput id "0" "0" None None)
  | Some counterParty =>
    let selfIsPartyA := isPartyA self counterParty in
    let! total := balance channel in
    let totalBalance := moveDecimalPoint (toString total) (DECIMALS * -1) in
    let! mine :=
      (if selfIsPartyA
       then let! a := balance_a channel in Resolved (toString a)
       else let! b := balance channel in
            let! a := balance_a channel in
            Resolved (toString (sub b a))) in
    let myBalance := moveDecimalPoint mine (DECIMALS * -1) in
    let! key := offChainCounterparty channel in
    let! peer := pubKeyToPeerId key in
    let peerId := toB58String peer in
    let! status := status channel in
    Resolved (generateOutput id myBalance totalBalance (Some peerId)
                             (Some status))
  end.

(** Lines 81-115: the [for] loop over the channels. *)
Fixpoint forChannels (self : AccountId) (channels : list Channel)
    (result : list string) : Promise (list string) :=
  match channels with
  | [] => Resolved result
  | channel :: channels =>
    let! text := describe self channel in
    forChannels self channels (result ++ [text])
  end.

(** Lines 72-117: the [try] block. *)
Definition tryBlock : Promise string :=
  let! self := address in
  let! channels := getMyOpenChannelInstances in
  if bool_decide (length channels = 0)
  then Resolved (nl +:+ "No open channels found.")
  else
    let! result := forChannels self channels [] in
    Resolved (String.concat (nl +:+ nl) result).

(** Lines 70-121: the [try] block and its [catch]. *)
Definition execute : Promise string :=
  match tryBlock with
  | Resolved text => Resolved text
  | Rejected err => Resolved (styleValue (Str (message err)) (Some "failure"))
  end.

(** An error of the account or of the channel query is the error of the
    [try] block. *)
Lemma tryBlock_address_rejected err :
  address = Rejected err → tryBlock = Rejected err.
Proof. intros Ha. unfold tryBlock. by rewrite Ha. Qed.

Lemma tryBlock_channels_rejected self err :
  address = Resolved self →
  getMyOpenChannelInstances = Rejected err →
  tryBlock = Rejected err.
Proof. intros Ha Hc. unfold tryBlock. by rewrite Ha, Hc. Qed.

(** So is the error of the first channel that cannot be described. *)
Lemma forChannels_rejected self before channel after result err :
  (∀ c, c ∈ before → ∃ text, describe self c = Resolved text) →
  describe self channel = Rejected err →
  forChannels self (before ++ channel :: after) result = Rejected err.
Proof.
  revert result. induction before as [|c before IH]; intros result Hok Hbad.
  - simpl. by rewrite Hbad.
  - simpl. destruct (Hok c) as [text ->]; [apply list_elem_of_here|]. simpl.
    apply IH; [|done]. intros c' Hc'. apply Hok. by apply list_elem_of_further.
Qed.

Lemma tryBlock_channel_rejected self before channel after err :
  address = Resolved self →
  getMyOpenChannelInstances = Resolved (before ++ channel :: after) →
  (∀ c, c ∈ before → ∃ text, describe self c = Resolved text) →
  describe self channel = Rejected err →
  tryBlock = Rejected err.
Proof.
  intros Ha Hc Hok Hbad. unfold tryBlock. rewrite Ha, Hc. simpl.
  rewrite bool_decide_eq_false_2.
  - by rewrite (forChannels_rejected _ _ _ _ _ err).
  - rewrite length_app. simpl. lia.
Qed.

(** The read of a channel that fails first, in the order lines 82-103
    make them, and the error it raises: the channel identifier, then, for a
    channel with a counterparty, the balance, the balance of party A, the
    off-chain counterparty, its conversion to a peer identifier and the
    status. *)
Definition readFailure (channel : Channel) (err : Error) : Prop :=
  channelId channel = Rejected err
  ∨ ∃ hash counterParty,
      channelId channel = Resolved hash
      ∧ counterparty channel = Some counterParty
      ∧ (balance channel = Rejected err
         ∨ ∃ total, balance channel = Resolved total
           ∧ (balance_a channel = Rejected err
              ∨ ∃ a, balance_a channel = Resolved a
                ∧ (offChainCounterparty channel = Rejected err
                   ∨ ∃ key, offChainCounterparty channel = Resolved key
                     ∧ (pubKeyToPeerId key = Rejected err
                        ∨ ∃ peer, pubKeyToPeerId key = Resolved peer
                          ∧ status channel = Rejected err)))).

(** The loop body fails exactly when a read fails, with its error. *)
Lemma describe_rejected (self : AccountId) (channel : Channel) (err : Error) :
  describe self channel = Rejected err ↔ readFailure channel err.
Proof.
  unfold describe, readFailure.
  destruct (channelId channel) as [hash|e1]; simpl.
  2: { split; [intros [= <-]; by left|].
       intros [[= <-]|(? & ? & ? & _)]; done. }
  destruct (counterparty channel) as [cp|].
  2: { split; [done|]. intros [?|(? & ? & _ & ? & _)]; done. }
  destruct (balance channel) as [total|e2]; simpl.
  2: { split; [intros [= <-]; right; exists hash, cp; by repeat split; try left|].
       intros [?|(? & ? & _ & _ & [[= <-]|(? & ? & _)])]; done. }
  destruct (balance_a channel) as [a|e3]; simpl.
  2: { destruct (isPartyA self cp); simpl;
       (split; [intros [= <-]; right; exists hash, cp;
                  split; [done|]; split; [done|]; right; exists total;
                  split; [done|]; by left|]);
       intros [?|(? & ? & _ & _ & [?|(? & _ & [[= <-]|(? & ? & _)])])]; done. }
  destruct (offChainCounterparty channel) as [key|e4]; simpl.
  2: { destruct (isPartyA self cp); simpl;
       (split; [intros [= <-]; right; exists hash, cp;
                  split; [done|]; split; [done|]; right; exists total;
                  split; [done|]; right; exists a; split; [done|]; by left|]);
       intros [?|(? & ? & _ & _ & [?|(? & _ & [?|(? & _ &
         [[= <-]|(? & ? & _)])])])]; done. }
  destruct (pubKeyToPeerId key) as [peer|e5] eqn:Hk; simpl.
  2: { destruct (isPartyA self cp); simpl;
       (split; [intros [= <-]; right; exists hash, cp;
                  split; [done|]; split; [done|]; right; exists total;
                  split; [done|]; right; exists a; split; [done|]; right;
                  exists key; split; [done|]; by left|]);
       intros [?|(? & ? & _ & _ & [?|(? & _ & [?|(? & _ &
         [?|(key' & [= <-] & [Hr|(? & Hr & _)])])])])]; try done;
       rewrite Hk in Hr; by simplify_eq. }
  destruct (status channel) as [st|e6]; simpl.
  - destruct (isPartyA self cp); simpl; (split; [done|]);
      intros [?|(? & ? & _ & _ & [?|(? & _ & [?|(? & _ &
        [?|(key' & [= <-] & [Hr|(? & _ & ?)])])])])]; try done;
      rewrite Hk in Hr; done.
  - destruct (isPartyA self cp); simpl;
      (split; [intros [= <-]; right; exists hash, cp;
                 split; [done|]; split; [done|]; right; exists total;
                 split; [done|]; right; exists a; split; [done|]; right;
                 exists key; split; [done|]; right; by exists peer|]);
      intros [?|(? & ? & _ & _ & [?|(? & _ & [?|(? & _ &
        [?|(key' & [= <-] & [Hr|(? & _ & [= <-])])])])])]; try done;
      rewrite Hk in Hr; done.
Qed.

Lemma describe_resolved (self : AccountId) (channel : Channel) :
  (∀ err, ¬ readFailure channel err) →
  ∃ text, describe self channel = Resolved text.
Proof.
  intros Hno. destruct (describe self channel) as [text|err] eqn:Hd; [eauto|].
  by apply describe_rejected, Hno in Hd.
Qed.

(** C9. [execute] never throws: whatever its collaborators do, it returns
    a string. Every error a collaborator raises comes back as its message
    styled as a failure: the error of the account address, of the channel
    query, and of the first read that fails on a channel (identifier,
    balances, counterparty, conversion to a peer identifier, status), the
    channels before it being readable. With no open channel the answer is
    the fixed text. *)
Theorem C9_execute_returns_a_string :
  (∃ text, execute = Resolved text)
  ∧ (∀ err,
       address = Rejected err →
       execute = Resolved (styleValue (Str (message err)) (Some "failure")))
  ∧ (∀ self err,
       address = Resolved self →
       getMyOpenChannelInstances = Rejected err →
       execute = Resolved (styleValue (Str (message err)) (Some "failure")))
  ∧ (∀ self before channel after err,
       address = Resolved self →
       getMyOpenChannelInstances = Resolved (before ++ channel :: after) →
       (∀ c e, c ∈ before → ¬ readFailure c e) →
       readFailure channel err →
       execute = Resolved (styleValue (Str (message err)) (Some "failure")))
  ∧ (∀ self,
       address = Resolved self →
       getMyOpenChannelInstances = Resolved [] →
       execute = Resolved (nl +:+ "No open channels found.")).
Proof.
  split; [|split; [|split; [|split]]].
  - unfold execute. destruct tryBlock; eauto.
  - intros err Ha. unfold execute.
    by rewrite (tryBlock_address_rejected err).
  - intros self err Ha Hc. unfold execute.
    by rewrite (tryBlock_channels_rejected self err).
  - intros self before channel after err Ha Hc Hok Hbad. unfold execute.
    rewrite (tryBlock_channel_rejected self before channel after err);
      [done..| |by apply describe_rejected].
    intros c Hin. apply describe_resolved. intros e. by apply Hok.
  - intros self Ha Hc. unfold execute, tryBlock. by rewrite Ha, Hc.
Qed.

(** *** Further properties of the listing *)

Lemma forChannels_resolved self channels texts result :
  Forall2 (fun channel text => describe self channel = Resolved text)
          channels texts →
  forChannels self channels result = Resolved (result ++ texts).
Proof.
  intros Hall. revert result.
  induction Hall as [|c t cs ts Hc _ IH]; intros result; simpl.
  - by rewrite app_nil_r.
  - rewrite Hc. simpl. rewrite IH. by rewrite <- app_assoc.
Qed.

(** X11. When every open channel can be read, [execute] answers with one
    block per channel, in the order of the channels, separated by an empty
    line. *)
Theorem execute_lists_channels_in_order
    (self : AccountId) (channels : list Channel) (texts : list string) :
  address = Resolved self →
  getMyOpenChannelInstances = Resolved channels →
  channels ≠ [] →
  Forall2 (fun channel text => describe self channel = Resolved text)
          channels texts →
  execute = Resolved (String.concat (nl +:+ nl) texts).
Proof.
  intros Ha Hc Hne Hall. unfold execute, tryBlock. rewrite Ha, Hc. simpl.
  rewrite bool_decide_eq_false_2 by (by destruct channels).
  by rewrite (forChannels_resolved _ _ texts).
Qed.

(** X12. One channel that cannot be read replaces the whole listing: the
    answer is the styled message of the first error, and what was
    collected for the channels before it is dropped. *)
Theorem execute_reports_first_unreadable_channel
    (self : AccountId) (before after : list Channel) (channel : Channel)
    (err : Error) :
  address = Resolved self →
  getMyOpenChannelInstances = Resolved (before ++ channel :: after) →
  (∀ c, c ∈ before → ∃ text, describe self c = Resolved text) →
  describe self channel = Rejected err →
  execute = Resolved (styleValue (Str (message err)) (Some "failure")).
Proof.
  intros Ha Hc Hok Hbad. unfold execute.
  by rewrite (tryBlock_channel_rejected self before channel after err).
Qed.

End Command.

(** ** A node without any open channel, one whose account cannot be
    read, and one with a channel *)

Module Demo.

Definition styleValue (value : Printable) (type : option string) : string :=
  match value with
  | Str s => s
  | Num n => String (ascii_of_nat (48 + n)) EmptyString
  end.

(** Balances below ten, printed as one digit. *)
Definition digit (n : nat) : string := String (ascii_of_nat (48 + n)) EmptyString.

Definition run (address : Promise nat)
    (channels : Promise (list (@Channel nat nat nat nat))) : Promise string :=
  execute styleValue (fun names => 15) (fun s => s) (fun hash => "0x2a")
    (fun s _ => s) (fun key => Resolved key) (fun peer => "16Uiu2HAm")
    Nat.leb 18 digit Nat.sub address channels.

Definition executeIdle : Promise string := run (Resolved 1) (Resolved []).

Definition executeLocked : Promise string :=
  run (Rejected (mkError "account is locked")) (Resolved []).

Definition open : @Channel nat nat nat nat :=
  mkChannel (Resolved 42) (Some 2) (Resolved 9) (Resolved 4) (Resolved 7)
            (Resolved "OPEN").

Definition unreadable : @Channel nat nat nat nat :=
  mkChannel (Resolved 42) (Some 2) (Rejected (mkError "balance unavailable"))
            (Resolved 4) (Resolved 7) (Resolved "OPEN").

End Demo.

Example executeLocked_reports :
  Demo.executeLocked = Resolved "account is locked".
Proof. reflexivity. Qed.

Example execute_one_channel :
  Demo.run (Resolved 1) (Resolved [Demo.open])
  = Resolved (nl +:+ "Channel        :  0x2a" +:+
              nl +:+ "CounterParty   :  16Uiu2HAm" +:+
              nl +:+ "Status         :  OPEN" +:+
              nl +:+ "Total Balance  :  9" +:+
              nl +:+ "My Balance     :  4").
Proof. reflexivity. Qed.

Example execute_unreadable_balance :
  Demo.run (Resolved 1) (Resolved [Demo.open; Demo.unreadable])
  = Resolved "balance unavailable".
Proof. reflexivity. Qed.

Lemma C9_witness :
  Demo.executeLocked = Resolved "account is locked"
  ∧ Demo.run (Resolved 1)
             (Resolved ([Demo.open] ++ Demo.unreadable :: [Demo.open]))
    = Resolved "balance unavailable"
  ∧ Demo.executeIdle = Resolved (nl +:+ "No open channels found.").
Proof.
  split; [|split].
  - apply (proj1 (proj2
      (C9_execute_returns_a_string Demo.styleValue (fun names => 15)
         (fun s => s) (fun hash => "0x2a") (fun s _ => s)
         (fun key => Resolved key) (fun peer => "16Uiu2HAm") Nat.leb 18
         Demo.digit Nat.sub (Rejected (mkError "account is locked"))
         (Resolved ([] : list (@Channel nat nat nat nat)))))
      (mkError "account is locked")).
    reflexivity.
  - apply (proj1 (proj2 (proj2 (proj2
      (C9_execute_returns_a_string Demo.styleValue (fun names => 15)
         (fun s => s) (fun hash => "0x2a") (fun s _ => s)
         (fun key => Resolved key) (fun peer => "16Uiu2HAm") Nat.leb 18
         Demo.digit Nat.sub (Resolved 1)
         (Resolved ([Demo.open] ++ Demo.unreadable :: [Demo.open]))))))
      1 [Demo.open] Demo.unreadable [Demo.open]
      (mkError "balance unavailable")).
    + reflexivity.
    + reflexivity.
    + intros c e Hc Hbad. apply list_elem_of_singleton in Hc. subst c.
      unfold readFailure in Hbad. simpl in Hbad.
      destruct Hbad as [H|(h & cp & _ & _ & [H|(t & _ & [H|(a & _ &
        [H|(k & Hk & [H|(pr & _ & H)])])])])]; discriminate H.
    + right. exists 42, 2. split; [reflexivity|]. split; [reflexivity|].
      left. reflexivity.
  - exact (proj2 (proj2 (proj2 (proj2
      (C9_execute_returns_a_string Demo.styleValue (fun names => 15)
         (fun s => s) (fun hash => "0x2a") (fun s _ => s)
         (fun key => Resolved key) (fun peer => "16Uiu2HAm") Nat.leb 18
         Demo.digit Nat.sub (Resolved 1)
         (Resolved ([] : list (@Channel nat nat nat nat)))))))
      1 eq_refl eq_refl).
Defined.

Lemma execute_lists_channels_in_order_witness :
  Demo.run (Resolved 1) (Resolved [Demo.open; Demo.open])
  = Resolved (String.concat (nl +:+ nl)
      [ nl +:+ "Channel        :  0x2a" +:+
        nl +:+ "CounterParty   :  16Uiu2HAm" +:+
        nl +:+ "Status         :  OPEN" +:+
        nl +:+ "Total Balance  :  9" +:+
        nl +:+ "My Balance     :  4";
        nl +:+ "Channel        :  0x2a" +:+
        nl +:+ "CounterParty   :  16Uiu2HAm" +:+
        nl +:+ "Status         :  OPEN" +:+
        nl +:+ "Total Balance  :  9" +:+
        nl +:+ "My Balance     :  4" ]).
Proof.
  apply (execute_lists_channels_in_order Demo.styleValue (fun names => 15)
           (fun s => s) (fun hash => "0x2a") (fun s _ => s)
           (fun key => Resolved key) (fun peer => "16Uiu2HAm") Nat.leb 18
           Demo.digit Nat.sub (Resolved 1) (Resolved [Demo.open; Demo.open])
           1 [Demo.open; Demo.open]).
  - reflexivity.
  - reflexivity.
  - discriminate.
  - repeat constructor.
Defined.

Lemma execute_reports_first_unreadable_channel_witness :
  Demo.run (Resolved 1)
           (Resolved ([Demo.open] ++ Demo.unreadable :: [Demo.open]))
  = Resolved "balance unavailable".
Proof.
  apply (execute_reports_first_unreadable_channel Demo.styleValue
           (fun names => 15) (fun s => s) (fun hash => "0x2a") (fun s _ => s)
           (fun key => Resolved key) (fun peer => "16Uiu2HAm") Nat.leb 18
           Demo.digit Nat.sub (Resolved 1)
           (Resolved ([Demo.open] ++ Demo.unreadable :: [Demo.open]))
           1 [Demo.open] [Demo.open] Demo.unreadable
           (mkError "balance unavailable")).
  - reflexivity.
  - reflexivity.
  - intros c Hc. apply list_elem_of_singleton in Hc. subst c.
    eexists. reflexivity.
  - reflexivity.
Defined.

End ListOpenChannels.

(** ** The send commands: [SendMessageBase.sendMessage], [SendMessage.execute]
    and [SendMessageFancy.execute]

    The commands are read as what they do to the outside (console, readline
    question, the node's [sendMessage]) and what they answer. The node's
    [sendMessage] is a collaborator: what it does with the path callback it
    is given is its own business, the callback is recorded as it is
    passed. *)

Module SendCommands.

Section Commands.

Context {PeerId Encoded Aliases : Type}.

(** [GlobalState] of ./abstractCommand, as far as the commands read it. *)
Record GlobalState := mkGlobalState {
  includeRecipient : bool;
  routing : string;
  aliases : Aliases
}.

(** The third argument of the node's [sendMessage]: [async () => []] of
    line 33, or the selector of lines 100-102 for a destination. *)
Inductive PathCallback :=
| EmptyPath
| ManualPath (destination : PeerId).

Inductive Effect :=
| ConsoleLog (text : string)
| Question (query : string)
| ClearString (text : string)
| NodeSend (msg : Encoded) (destination : PeerId)
           (getPath : option PathCallback).

(** [this.node.peerInfo.id.toB58String()] *)
Variable myAddress : string.
(** [styleValue], [encodeMessage], [checkPeerIdInput] of ../utils *)
Variable styleValue : Printable → option string → string.
Variable encodeMessage : string → Promise Encoded.
Variable checkPeerIdInput : string → GlobalState → Promise PeerId.
(** [this.node.sendMessage(msg, destination, getPath?)] *)
Variable nodeSendMessage :
  Encoded → PeerId → option PathCallback → Promise unit.
(** [this._assertUsage(query, ['PeerId', 'Message'], test)], with the
    regular expression of line 52 as [test], and
    [this._assertUsage(query, ['PeerId'])]: the array they answer, an empty
    [err] meaning that the usage is right. *)
Variable assertUsagePeerIdMessage : string → string * string * string.
Variable assertUsagePeerId : string → string * string.

(** The text of an error styled as a failure, as every [catch] of the
    commands prints or answers it. *)
Definition failure (err : Error) : string :=
  styleValue (Str (message err)) (Some "failure").

(** The truth value of a string. *)
Definition nonEmpty (s : string) : bool :=
  match s with
  | EmptyString => false
  | String _ _ => true
  end.

(** Lines 25-27 and 90-92. *)
Definition withRecipient (state : GlobalState) (msg : string) : string :=
  if includeRecipient state then myAddress +:+ ":" +:+ msg else msg.

(** Lines 24-38. *)
Definition sendMessage (state : GlobalState) (recipient : PeerId)
    (msg : string) : list Effect * Promise unit :=
  let text := withRecipient state msg in
  match encodeMessage text with
  | Rejected err =>
    ([ConsoleLog (failure err)],
     Resolved tt)
  | Resolved encoded =>
    match nodeSendMessage encoded recipient (Some EmptyPath) with
    | Resolved _ => ([NodeSend encoded recipient (Some EmptyPath)], Resolved tt)
    | Rejected err =>
      ([NodeSend encoded recipient (Some EmptyPath);
        ConsoleLog (failure err)],
       Resolved tt)
    end
  end.

(** Lines 51-63: [SendMessage.execute]. *)
Definition execute (query : string) (state : GlobalState)
  : list Effect * Promise (option string) :=
  let '(err, peerIdString, msg) := assertUsagePeerIdMessage query in
  if nonEmpty err then ([], Resolved (Some err))
  else
    match checkPeerIdInput peerIdString state with
    | Rejected err => ([], Resolved (Some (message err)))
    | Resolved peerId =>
      let '(effects, sent) := sendMessage state peerId msg in
      (effects, let! _ := sent in Resolved None)
    end.

(** Lines 97-115: the [try] block and its [catch], after [earlier]
    effects. *)
Definition trySend (earlier : list Effect) (text : string)
    (peerId : PeerId) (getPath : option PathCallback)
  : list Effect * Promise (option string) :=
  match encodeMessage text with
  | Rejected err =>
    (earlier, Resolved (Some (failure err)))
  | Resolved encoded =>
    (earlier ++ [NodeSend encoded peerId getPath],
     match nodeSendMessage encoded peerId getPath with
     | Resolved _ => Resolved None
     | Rejected err =>
       Resolved (Some (failure err))
     end)
  end.

(** Lines 75-116: [SendMessageFancy.execute]; [parsedMessage] is what the
    operator answers to the question of line 88. *)
Definition executeFancy (query : string) (state : GlobalState)
    (parsedMessage : string) : list Effect * Promise (option string) :=
  let '(err, peerIdString) := assertUsagePeerId query in
  if nonEmpty err then ([], Resolved (Some err))
  else
    match checkPeerIdInput peerIdString state with
    | Rejected err =>
      ([ConsoleLog (failure err)],
       Resolved None)
    | Resolved peerId =>
      let messageQuestion :=
        styleValue (Str "Type your message and press ENTER to send:")
                   (Some "highlight") +:+ ListOpenChannels.nl in
      let text := withRecipient state parsedMessage in
      let effects :=
        [Question messageQuestion;
         ClearString (messageQuestion +:+ text);
         ConsoleLog ("Sending message to " +:+
                     styleValue (Str query) (Some "peerId") +:+ " ...")] in
      if bool_decide (routing state = "manual")
      then trySend effects text peerId (Some (ManualPath peerId))
      else if bool_decide (routing state = "auto")
      then trySend effects text peerId None
      else trySend effects text peerId None
    end.

(** The calls of the node's [sendMessage] among the effects. *)
Definition isNodeSend (effect : Effect) : bool :=
  match effect with
  | NodeSend _ _ _ => true
  | _ => false
  end.

(** The peer a command line names, when the usage is right and the parser
    takes it. *)
Definition recipientOf (usage : string * string) (state : GlobalState)
  : option PeerId :=
  if nonEmpty usage.1 then None
  else match checkPeerIdInput usage.2 state with
       | Resolved peerId => Some peerId
       | Rejected _ => None
       end.

Lemma sendMessage_cases
    (state : GlobalState) (recipient : PeerId) (msg : string) :
  (sendMessage state recipient msg).2 = Resolved tt
  ∧ ∀ encoded destination getPath,
      NodeSend encoded destination getPath ∈ (sendMessage state recipient msg).1 →
      encodeMessage (withRecipient state msg) = Resolved encoded
      ∧ destination = recipient
      ∧ getPath = Some EmptyPath.
Proof.
  unfold sendMessage.
  destruct (encodeMessage _) as [encoded|err] eqn:He; simpl.
  - destruct (nodeSendMessage _ _ _); simpl; (split; [done|]);
      intros e d g Hin.
    + apply list_elem_of_singleton in Hin. by simplify_eq.
    + apply elem_of_cons in Hin as [Hin|Hin]; [by simplify_eq|].
      apply list_elem_of_singleton in Hin. done.
  - split; [done|]. intros e d g Hin.
    apply list_elem_of_singleton in Hin. done.
Qed.

(** X13. [sendMessage] never rejects: a failure of the encoder or of the
    node is written to the console, as its message styled as a failure,
    and the call resolves. The node is asked at most once, for the given
    recipient, with the encoded message and the callback of the empty
    path; when the encoder fails it is not asked, and when all goes well
    nothing is written. *)
Theorem sendMessage_resolves_with_empty_path
    (state : GlobalState) (recipient : PeerId) (msg : string) :
  (sendMessage state recipient msg).2 = Resolved tt
  ∧ length (List.filter isNodeSend (sendMessage state recipient msg).1) ≤ 1
  ∧ (∀ encoded destination getPath,
      NodeSend encoded destination getPath ∈ (sendMessage state recipient msg).1 →
      encodeMessage (withRecipient state msg) = Resolved encoded
      ∧ destination = recipient
      ∧ getPath = Some EmptyPath)
  ∧ (∀ err,
       encodeMessage (withRecipient state msg) = Rejected err →
       (sendMessage state recipient msg).1
       = [ConsoleLog (styleValue (Str (message err)) (Some "failure"))])
  ∧ (∀ encoded err,
       encodeMessage (withRecipient state msg) = Resolved encoded →
       nodeSendMessage encoded recipient (Some EmptyPath) = Rejected err →
       (sendMessage state recipient msg).1
       = [NodeSend encoded recipient (Some EmptyPath);
          ConsoleLog (styleValue (Str (message err)) (Some "failure"))])
  ∧ (∀ encoded,
       encodeMessage (withRecipient state msg) = Resolved encoded →
       nodeSendMessage encoded recipient (Some EmptyPath) = Resolved tt →
       (sendMessage state recipient msg).1
       = [NodeSend encoded recipient (Some EmptyPath)]).
Proof.
  destruct (sendMessage_cases state recipient msg) as [Hr Hs].
  split; [done|]. split; [|split; [done|]].
  { unfold sendMessage.
    destruct (encodeMessage _); [destruct (nodeSendMessage _ _ _)|]; simpl;
      lia. }
  unfold sendMessage, failure.
  split; [|split].
  - intros err ->. done.
  - intros encoded err -> ->. done.
  - intros encoded -> ->. done.
Qed.

(** X14. [SendMessage.execute] never rejects, and whatever [state.routing]
    says it sends over the empty path only: the node is asked only when the
    usage is right and the peer identifier parses, for that peer. With a
    peer identifier the parser refuses, the answer is the parser's message
    and nothing is done. *)
Theorem execute_sends_to_parsed_peer_over_empty_path
    (query : string) (state : GlobalState) :
  (∃ answer, (execute query state).2 = Resolved answer)
  ∧ (∀ encoded destination getPath,
       NodeSend encoded destination getPath ∈ (execute query state).1 →
       recipientOf ((assertUsagePeerIdMessage query).1.1,
                    (assertUsagePeerIdMessage query).1.2) state
       = Some destination
       ∧ getPath = Some EmptyPath)
  ∧ (∀ err,
       nonEmpty (assertUsagePeerIdMessage query).1.1 = false →
       checkPeerIdInput (assertUsagePeerIdMessage query).1.2 state
       = Rejected err →
       execute query state = ([], Resolved (Some (message err)))).
Proof.
  unfold execute, recipientOf.
  destruct (assertUsagePeerIdMessage query) as [[err peerIdString] msg]. simpl.
  destruct (nonEmpty err); simpl.
  { split; [eauto|]. split; [|done]. intros e d g Hin. by apply elem_of_nil in Hin. }
  destruct (checkPeerIdInput peerIdString state) as [peerId|e] eqn:Hp; simpl.
  - pose proof (sendMessage_cases state peerId msg)
      as [Hr Hs].
    destruct (sendMessage state peerId msg) as [effects sent]. simpl in *.
    subst sent. simpl. split; [eauto|]. split; [|done].
    intros e d g Hin. destruct (Hs e d g Hin) as (_ & -> & ->). done.
  - split; [eauto|]. split.
    + intros e' d g Hin. by apply elem_of_nil in Hin.
    + intros err' _ Heq. by simplify_eq.
Qed.

(** The path callback [SendMessageFancy.execute] hands to the node for a
    peer: the selector under manual routing, none otherwise. *)
Definition pathFor (state : GlobalState) (peerId : PeerId)
  : option PathCallback :=
  if bool_decide (routing state = "manual") then Some (ManualPath peerId)
  else None.

(** X15. [SendMessageFancy.execute] never rejects. It answers a text only
    for a wrong usage (the usage text, nothing being done) or when the
    encoder or the node fails (the styled message of the error); a peer
    identifier the parser refuses is written to the console, as its styled
    message, and nothing is answered or done; when the node takes the
    message nothing is answered. *)
Theorem executeFancy_never_rejects
    (query : string) (state : GlobalState) (parsedMessage : string) :
  (∃ answer, (executeFancy query state parsedMessage).2 = Resolved answer)
  ∧ (nonEmpty (assertUsagePeerId query).1 = true →
     executeFancy query state parsedMessage
     = ([], Resolved (Some (assertUsagePeerId query).1)))
  ∧ (∀ err,
       nonEmpty (assertUsagePeerId query).1 = false →
       checkPeerIdInput (assertUsagePeerId query).2 state = Rejected err →
       executeFancy query state parsedMessage
       = ([ConsoleLog (styleValue (Str (message err)) (Some "failure"))],
          Resolved None))
  ∧ (∀ peerId err,
       nonEmpty (assertUsagePeerId query).1 = false →
       checkPeerIdInput (assertUsagePeerId query).2 state = Resolved peerId →
       encodeMessage (withRecipient state parsedMessage) = Rejected err →
       (executeFancy query state parsedMessage).2
       = Resolved (Some (styleValue (Str (message err)) (Some "failure"))))
  ∧ (∀ peerId encoded err,
       nonEmpty (assertUsagePeerId query).1 = false →
       checkPeerIdInput (assertUsagePeerId query).2 state = Resolved peerId →
       encodeMessage (withRecipient state parsedMessage) = Resolved encoded →
       nodeSendMessage encoded peerId (pathFor state peerId) = Rejected err →
       (executeFancy query state parsedMessage).2
       = Resolved (Some (styleValue (Str (message err)) (Some "failure"))))
  ∧ (∀ peerId encoded,
       nonEmpty (assertUsagePeerId query).1 = false →
       checkPeerIdInput (assertUsagePeerId query).2 state = Resolved peerId →
       encodeMessage (withRecipient state parsedMessage) = Resolved encoded →
       nodeSendMessage encoded peerId (pathFor state peerId) = Resolved tt →
       (executeFancy query state parsedMessage).2 = Resolved None).
Proof.
  unfold executeFancy, trySend, pathFor, failure.
  destruct (assertUsagePeerId query) as [err peerIdString]. simpl.
  destruct (nonEmpty err) eqn:Hu; simpl.
  { split; [eauto|]. repeat split; intros; done. }
  split.
  { destruct (checkPeerIdInput peerIdString state) as [peerId|e]; simpl;
      [|eauto].
    destruct (encodeMessage (withRecipient state parsedMessage))
      as [encoded|e];
      repeat case_bool_decide; simpl;
      try destruct (nodeSendMessage encoded peerId _); eauto. }
  split; [done|]. split; [by intros e _ ->|].
  split; [|split].
  - intros peerId e _ -> ->. by repeat case_bool_decide.
  - intros peerId encoded e _ -> ->.
    repeat case_bool_decide; simpl; by intros ->.
  - intros peerId encoded _ -> ->.
    repeat case_bool_decide; simpl; by intros ->.
Qed.

(** X16. [SendMessageFancy.execute] asks for the message and turns to the
    node only when the usage is right and the peer identifier parses. What
    it hands to the node is the encoded message for that peer, with the
    selector for that same peer as path callback under manual routing and
    with no callback under any other routing. *)
Theorem executeFancy_sends_only_to_parsed_peer
    (query : string) (state : GlobalState) (parsedMessage : string) :
  (∀ text, Question text ∈ (executeFancy query state parsedMessage).1 →
     is_Some (recipientOf (assertUsagePeerId query) state))
  ∧ (∀ encoded destination getPath,
       NodeSend encoded destination getPath
         ∈ (executeFancy query state parsedMessage).1 →
       recipientOf (assertUsagePeerId query) state = Some destination
       ∧ encodeMessage (withRecipient state parsedMessage) = Resolved encoded
       ∧ getPath = (if bool_decide (routing state = "manual")
                    then Some (ManualPath destination) else None)).
Proof.
  unfold executeFancy, trySend, recipientOf.
  destruct (assertUsagePeerId query) as [err peerIdString]. simpl.
  destruct (nonEmpty err) eqn:Hu; simpl.
  { split; [intros t Hin|intros e d g Hin]; by apply elem_of_nil in Hin. }
  destruct (checkPeerIdInput peerIdString state) as [peerId|e]; simpl.
  - split; [eauto|]. intros e d g.
    destruct (encodeMessage (withRecipient state parsedMessage))
      as [encoded|e'] eqn:He;
      repeat case_bool_decide; simpl; intros Hin;
      repeat (apply elem_of_cons in Hin as [Hin|Hin]; [by simplify_eq|]);
      by apply elem_of_nil in Hin.
  - split; [intros t Hin|intros e' d g Hin];
      apply list_elem_of_singleton in Hin; done.
Qed.

End Commands.

(** ** The commands on a demonstration node *)

Module Demo.

Definition styleValue (value : Printable) (type : option string) : string :=
  match value with
  | Str s => s
  | Num n => String (ascii_of_nat (48 + n)) EmptyString
  end.

(** The encoder refuses the empty message. *)
Definition encodeMessage (text : string) : Promise string :=
  if bool_decide (text = "") then Rejected (mkError "Nothing to encode")
  else Resolved text.

Definition checkPeerIdInput (query : string) (state : @GlobalState unit)
  : Promise string :=
  if bool_decide (query ∈ ["self"; "alice"; "bob"; "carol"; "dave"])
  then Resolved query
  else Rejected (mkError "Invalid peerId.").

(** The node cannot reach dave. *)
Definition nodeSendMessage (msg : string) (destination : string)
    (getPath : option (@PathCallback string)) : Promise unit :=
  if bool_decide (destination = "dave") then Rejected (mkError "Timeout")
  else Resolved tt.

(** The first word and the rest of a command line. *)
Fixpoint firstWord (query : string) : string * string :=
  match query with
  | EmptyString => (EmptyString, EmptyString)
  | String c rest =>
    if Ascii.eqb c " " then (EmptyString, rest)
    else let '(word, others) := firstWord rest in (String c word, others)
  end.

Definition assertUsagePeerIdMessage (query : string)
  : string * string * string :=
  let '(peerIdString, msg) := firstWord query in
  if bool_decide (msg = "") then ("usage: <PeerId> <Message>", "", "")
  else ("", peerIdString, msg).

Definition assertUsagePeerId (query : string) : string * string :=
  if bool_decide (query = "") then ("usage: <PeerId>", "") else ("", query).

Definition manual : @GlobalState unit := mkGlobalState true "manual" tt.

Definition direct : @GlobalState unit := mkGlobalState false "direct" tt.

Definition sendMessage :=
  @sendMessage string string unit "self" styleValue encodeMessage
    nodeSendMessage.

Definition execute :=
  @execute string string unit "self" styleValue encodeMessage
    checkPeerIdInput nodeSendMessage assertUsagePeerIdMessage.

Definition executeFancy :=
  @executeFancy string string unit "self" styleValue encodeMessage
    checkPeerIdInput nodeSendMessage assertUsagePeerId.

End Demo.

Example execute_sends_with_sender :
  Demo.execute "alice hello there" Demo.manual
  = ([NodeSend "self:hello there" "alice" (Some EmptyPath)], Resolved None).
Proof. reflexivity. Qed.

Example execute_logs_node_failure :
  Demo.execute "dave hello" Demo.direct
  = ([NodeSend "hello" "dave" (Some EmptyPath); ConsoleLog "Timeout"],
     Resolved None).
Proof. reflexivity. Qed.

Example executeFancy_answers_node_failure :
  (Demo.executeFancy "dave" Demo.direct "hello").2 = Resolved (Some "Timeout").
Proof. reflexivity. Qed.

Example executeFancy_logs_invalid_peer :
  Demo.executeFancy "zzz" Demo.manual "hello"
  = ([ConsoleLog "Invalid peerId."], Resolved None).
Proof. reflexivity. Qed.

Lemma sendMessage_resolves_with_empty_path_witness :
  (Demo.sendMessage Demo.manual "dave" "hi").1
  = [NodeSend "self:hi" "dave" (Some EmptyPath); ConsoleLog "Timeout"].
Proof.
  apply (proj1 (proj2 (proj2 (proj2 (proj2
           (sendMessage_resolves_with_empty_path "self"
              Demo.styleValue Demo.encodeMessage Demo.nodeSendMessage
              Demo.manual "dave" "hi")))))
           "self:hi" (mkError "Timeout")).
  - reflexivity.
  - reflexivity.
Defined.

Lemma executeFancy_never_rejects_witness :
  Demo.executeFancy "zzz" Demo.manual "hello"
  = ([ConsoleLog "Invalid peerId."], Resolved None)
  ∧ (Demo.executeFancy "dave" Demo.manual "hello").2
    = Resolved (Some "Timeout").
Proof.
  split.
  - apply (proj1 (proj2 (proj2
             (executeFancy_never_rejects "self" Demo.styleValue
                Demo.encodeMessage Demo.checkPeerIdInput Demo.nodeSendMessage
                Demo.assertUsagePeerId "zzz" Demo.manual "hello")))
             (mkError "Invalid peerId.")).
    + reflexivity.
    + reflexivity.
  - apply (proj1 (proj2 (proj2 (proj2 (proj2
             (executeFancy_never_rejects "self" Demo.styleValue
                Demo.encodeMessage Demo.checkPeerIdInput Demo.nodeSendMessage
                Demo.assertUsagePeerId "dave" Demo.manual "hello")))))
             "dave" "self:hello" (mkError "Timeout")).
    + reflexivity.
    + reflexivity.
    + reflexivity.
    + reflexivity.
Defined.

Lemma execute_sends_to_parsed_peer_over_empty_path_witness :
  Demo.execute "zzz hello" Demo.manual
  = ([], Resolved (Some "Invalid peerId.")).
Proof.
  apply (proj2 (proj2 (execute_sends_to_parsed_peer_over_empty_path "self"
           Demo.styleValue Demo.encodeMessage Demo.checkPeerIdInput
           Demo.nodeSendMessage Demo.assertUsagePeerIdMessage
           "zzz hello" Demo.manual)) (mkError "Invalid peerId.")).
  - reflexivity.
  - reflexivity.
Defined.

Lemma executeFancy_sends_only_to_parsed_peer_witness :
  recipientOf Demo.checkPeerIdInput (Demo.assertUsagePeerId "alice") Demo.manual
  = Some "alice"
  ∧ Demo.encodeMessage (withRecipient "self" Demo.manual "hi")
    = Resolved "self:hi"
  ∧ Some (ManualPath "alice")
    = (if bool_decide (routing Demo.manual = "manual")
       then Some (ManualPath "alice") else None).
Proof.
  apply (proj2 (executeFancy_sends_only_to_parsed_peer "self"
           Demo.styleValue Demo.encodeMessage Demo.checkPeerIdInput
           Demo.nodeSendMessage Demo.assertUsagePeerId
           "alice" Demo.manual "hi") "self:hi" "alice"
           (Some (ManualPath "alice"))).
  change (NodeSend "self:hi" "alice" (Some (ManualPath "alice"))
          ∈ [Question (Demo.styleValue
                         (Str "Type your message and press ENTER to send:")
                         (Some "highlight") +:+ ListOpenChannels.nl);
             ClearString ((Demo.styleValue
                             (Str "Type your message and press ENTER to send:")
                             (Some "highlight") +:+ ListOpenChannels.nl)
                          +:+ "self:hi");
             ConsoleLog ("Sending message to " +:+ "alice" +:+ " ...");
             NodeSend "self:hi" "alice" (Some (ManualPath "alice"))]).
  repeat constructor.
Defined.

End SendCommands.
